(** * dombili: a thin layer over the host document tree

    The library is two ES modules: the mutation module ([text], [normalize],
    [el], [before], [after], [append], [prepend], [replace], [remove], [html],
    [setAttr], [attr], [setData], [data]) and the query module ([select],
    [selectFirst], [find], [matches], [parent], [closest]).

    Every function is a few guards followed by one call into the host
    document.  The embedding therefore has three layers:

    - JavaScript values, truthiness, string coercion, and a heap of objects
      with property reads and writes (strict-mode semantics, since the files
      are ES modules);
    - the host tree: nodes with a parent link and an ordered child list, and
      the host methods the library calls ([insertBefore], [appendChild],
      [replaceChild], [removeChild], [createElement], ...), following the
      steps of the DOM standard; the text formats the host owns (selectors,
      names, markup) are an interface the host implements;
    - the library functions, written in a state-and-exception monad in the
      order the source evaluates them. *)

From Stdlib Require Import Ascii.
From stdpp Require Import base option list strings gmap pretty.

Open Scope string_scope.
Open Scope list_scope.

(** ** JavaScript values *)

(** Objects live in a heap and are named by references. *)
Abbreviation loc := positive.

(** Methods provided by the host.  A method is a value like any other: the
    library reads it as a property (the capability probe) and then calls
    it. *)
Inductive native :=
  | NCreateTextNode | NCreateElement
  | NInsertBefore | NAppendChild | NReplaceChild | NRemoveChild
  | NQuerySelectorAll | NQuerySelector
  | NMatches | NClosest.

Inductive val :=
  | VUndef
  | VNull
  | VBool (b : bool)
  | VNum (n : Z)               (* integer-valued numbers *)
  | VStr (s : string)
  | VRef (r : loc)             (* an object in the heap *)
  | VNative (f : native).      (* a host function *)

#[global] Instance native_eq_dec : EqDecision native.
Proof. solve_decision. Defined.
#[global] Instance value_eq_dec : EqDecision val.
Proof. solve_decision. Defined.

(** [!v] is [negb (truthy v)]. *)
Definition truthy (v : val) : bool :=
  match v with
  | VUndef | VNull => false
  | VBool b => b
  | VNum n => negb (n =? 0)%Z
  | VStr s => negb (String.eqb s "")
  | VRef _ | VNative _ => true
  end.

(** [typeof v === 'string'] *)
Definition is_string (v : val) : bool :=
  match v with VStr _ => true | _ => false end.

(** [typeof v === 'undefined'] *)
Definition is_undefined (v : val) : bool :=
  match v with VUndef => true | _ => false end.

(** The template literal [`${v}`].  [VNum n] stands for the number [n],
    which is exact for the safe integers ([|n| < 2^53]).  For an object the
    result is that of [Object.prototype.toString] on an ordinary object; a
    host object prints its interface name instead, so the string form is
    exact only on the values [exact_string] accepts. *)
Definition to_string (v : val) : string :=
  match v with
  | VUndef => "undefined"
  | VNull => "null"
  | VBool true => "true"
  | VBool false => "false"
  | VNum n => pretty n
  | VStr s => s
  | VRef _ => "[object Object]"
  | VNative _ => "function () { [native code] }"
  end.

(** The values whose string form [to_string] gives exactly. *)
Definition exact_string (v : val) : bool :=
  match v with
  | VRef _ | VNative _ => false
  | VNum n => (Z.abs n <? 2 ^ 53)%Z
  | _ => true
  end.

(** ** Objects and the heap *)

Inductive kind :=
  | KDocument                  (* the host document *)
  | KElement (tag : string)
  | KText
  | KNodeList (items : list loc)   (* the collection a query returns *)
  | KObject.                   (* an ordinary object, e.g. a test stub *)

#[global] Instance kind_eq_dec : EqDecision kind.
Proof. solve_decision. Defined.

(** [props] are the object's own data properties.  The other fields are the
    host's internal slots and are only meaningful for tree nodes:
    [content] is the data of a Text node. *)
Record obj := Obj {
  okind : kind;
  props : gmap string val;
  parentNode : option loc;
  childNodes : list loc;
  content : string
}.

#[global] Instance obj_eq_dec : EqDecision obj.
Proof. solve_decision. Defined.

Abbreviation heap := (gmap positive obj).

Definition is_node (k : kind) : bool :=
  match k with KDocument | KElement _ | KText => true | _ => false end.

Definition is_element (k : kind) : bool :=
  match k with KElement _ => true | _ => false end.

Definition set_props (f : gmap string val → gmap string val) (o : obj) : obj :=
  Obj (okind o) (f (props o)) (parentNode o) (childNodes o) (content o).
Definition set_parent (p : option loc) (o : obj) : obj :=
  Obj (okind o) (props o) p (childNodes o) (content o).
Definition set_children (f : list loc → list loc) (o : obj) : obj :=
  Obj (okind o) (props o) (parentNode o) (f (childNodes o)) (content o).

Definition opt_ref (o : option loc) : val := from_option VRef VNull o.

Definition parent_of (σ : heap) (r : loc) : option loc := σ !! r ≫= parentNode.
Definition children_of (σ : heap) (r : loc) : list loc :=
  from_option childNodes [] (σ !! r).
Definition kind_of (σ : heap) (r : loc) : option kind := okind <$> σ !! r.

(** The global [document]. *)
Definition document : loc := 1%positive.

(** ** Exceptions and the evaluation monad *)

Inductive exn :=
  | TypeError
  | HierarchyRequestError
  | NotFoundError
  | InvalidCharacterError
  | SyntaxError.

Inductive outcome (A : Type) :=
  | Return (a : A) (σ : gmap positive obj)
  | Throw (e : exn) (σ : gmap positive obj).
Arguments Return {A} a σ.
Arguments Throw {A} e σ.

Definition M (A : Type) : Type := gmap positive obj → outcome A.

#[global] Instance M_ret : MRet M := λ A a σ, Return a σ.
#[global] Instance M_bind : MBind M := λ A B k m σ,
  match m σ with
  | Return a σ' => k a σ'
  | Throw e σ' => Throw e σ'
  end.

Definition throw {A} (e : exn) : M A := λ σ, Throw e σ.

(** ** Markup

    The nodes that a piece of markup stands for, and the nodes below an
    element, as a tree of tags and text. *)
#[local] Set Warnings "-register-all".
Inductive mtree :=
  | MText (data : string)
  | MElem (tag : string) (kids : list mtree).

(** Making parsed nodes objects of the heap, children of [parent]: every
    node is a new object. *)
Fixpoint alloc_tree (parent : loc) (t : mtree) (σ : heap) : loc * heap :=
  let r := fresh (dom σ) in
  match t with
  | MText s => (r, <[r := Obj KText ∅ (Some parent) [] s]> σ)
  | MElem tag kids =>
    let go := fix go (l : list mtree) (τ : heap) : list loc * heap :=
      match l with
      | [] => ([], τ)
      | k :: l' =>
        let '(c, τ1) := alloc_tree r k τ in
        let '(cs, τ2) := go l' τ1 in
        (c :: cs, τ2)
      end in
    let '(ks, σ1) := go kids (<[r := Obj (KElement tag) ∅ (Some parent) [] ""]> σ) in
    (r, alter (set_children (λ _, ks)) r σ1)
  end.

Fixpoint alloc_forest (parent : loc) (l : list mtree) (σ : heap)
    : list loc * heap :=
  match l with
  | [] => ([], σ)
  | k :: l' =>
    let '(c, σ1) := alloc_tree parent k σ in
    let '(cs, σ2) := alloc_forest parent l' σ1 in
    (c :: cs, σ2)
  end.

(** The tree below [r], read off the heap.  The depth of a tree is bounded
    by the number of objects. *)
Fixpoint markup_of (fuel : nat) (σ : heap) (r : loc) : list mtree :=
  match fuel with
  | 0 => []
  | S fuel' =>
    match σ !! r with
    | Some o =>
      match okind o with
      | KText => [MText (content o)]
      | KElement t => [MElem t (flat_map (markup_of fuel' σ) (childNodes o))]
      | _ => []
      end
    | None => []
    end
  end.

(** The number of nodes of a tree: so many objects an allocation adds. *)
Fixpoint mtree_size (k : mtree) : nat :=
  match k with
  | MText _ => 1
  | MElem _ kids => S (sum_list (map mtree_size kids))
  end.

Definition forest_size (l : list mtree) : nat := sum_list (map mtree_size l).

(** ** What the host owns

    Three text formats belong to the host, and the library hands strings in
    them through unchanged:

    - selectors: [selector_parse sel] is [None] for a string the host
      rejects (it throws [SyntaxError]), and otherwise the test the selector
      stands for;
    - names: [valid_name] says which names [createElement] accepts (it
      throws [InvalidCharacterError] on the others);
    - markup: [parse_markup t m] are the nodes the host's parser makes of
      [m] inside an element [t], and [serialize_markup t l] is the host's
      serialization of the children [l] of an element [t].

    Of the markup functions only two facts are used: the empty string
    parses to no nodes, and no nodes serialize to the empty string.  The
    class is named after its first member. *)
Class SelectorEngine := {
  selector_parse : string → option (heap → loc → bool);
  valid_name : string → bool;
  parse_markup : string → string → list mtree;
  serialize_markup : string → list mtree → string;
  parse_markup_empty : ∀ t, parse_markup t "" = [];
  serialize_markup_empty : ∀ t, serialize_markup t [] = ""
}.

Section Dombili.
Context `{SelectorEngine}.

(** Reading [innerHTML]: the serialization of what is below the element. *)
Definition inner_markup_get (σ : heap) (r : loc) : string :=
  match kind_of σ r with
  | Some (KElement t) =>
    serialize_markup t (flat_map (markup_of (size σ) σ) (children_of σ r))
  | _ => ""
  end.

(** Assigning to [innerHTML]: the children of the element are taken out of
    the tree, and the nodes parsed from the markup, all new, take their
    place. *)
Definition inner_markup_set (r : loc) (m : string) (σ : heap) : heap :=
  match kind_of σ r with
  | Some (KElement t) =>
    let σ1 := foldr (λ c, alter (set_parent None) c) σ (children_of σ r) in
    let '(ks, σ2) := alloc_forest r (parse_markup t m) σ1 in
    alter (set_children (λ _, ks)) r σ2
  | _ => σ
  end.

(** Does the host accept the selector? *)
Definition selector_valid (sel : string) : bool :=
  match selector_parse sel with Some _ => true | None => false end.

(** The verdict of an accepted selector on an element. *)
Definition selector_test (sel : string) (σ : heap) (r : loc) : bool :=
  match selector_parse sel with Some f => f σ r | None => false end.

(** ** Property reads and writes *)

(** The accessor properties of host objects that the library touches.  They
    are computed from the internal slots.  The host defines many more
    ([id], [className], [textContent], [lastChild], ..., and [__proto__] on
    every object); those are not represented and are read and written here
    like ordinary properties, so statements about arbitrary property names
    are made for plain objects. *)
Inductive accessor :=
  | AParentNode | AFirstChild | ANextSibling | AInnerHTML | ALength.

Definition accessor_of (k : kind) (p : string) : option accessor :=
  match k with
  | KObject => None
  | KNodeList _ => if String.eqb p "length" then Some ALength else None
  | _ =>
    if String.eqb p "parentNode" then Some AParentNode
    else if String.eqb p "firstChild" then Some AFirstChild
    else if String.eqb p "nextSibling" then Some ANextSibling
    else if String.eqb p "innerHTML" then
      (if is_element k then Some AInnerHTML else None)
    else None
  end.

(** Methods inherited from the host prototypes: every node has the four
    child-list methods, elements and the document have the selector queries,
    elements can be tested against a selector, the document creates nodes. *)
Definition method_of (k : kind) (p : string) : option native :=
  if negb (is_node k) then None
  else if String.eqb p "insertBefore" then Some NInsertBefore
  else if String.eqb p "appendChild" then Some NAppendChild
  else if String.eqb p "replaceChild" then Some NReplaceChild
  else if String.eqb p "removeChild" then Some NRemoveChild
  else match k with
       | KDocument =>
         if String.eqb p "createTextNode" then Some NCreateTextNode
         else if String.eqb p "createElement" then Some NCreateElement
         else if String.eqb p "querySelectorAll" then Some NQuerySelectorAll
         else if String.eqb p "querySelector" then Some NQuerySelector
         else None
       | KElement _ =>
         if String.eqb p "querySelectorAll" then Some NQuerySelectorAll
         else if String.eqb p "querySelector" then Some NQuerySelector
         else if String.eqb p "matches" then Some NMatches
         else if String.eqb p "closest" then Some NClosest
         else None
       | _ => None
       end.

(** The element that follows [r] in a child list. *)
Fixpoint next_in (r : loc) (l : list loc) : option loc :=
  match l with
  | [] => None
  | x :: l' => if decide (x = r) then head l' else next_in r l'
  end.

Definition nextSibling (σ : heap) (r : loc) : option loc :=
  p ← parent_of σ r; next_in r (children_of σ p).

Definition obj_get (σ : heap) (r : loc) (o : obj) (p : string) : val :=
  match accessor_of (okind o) p with
  | Some AParentNode => opt_ref (parentNode o)
  | Some AFirstChild => opt_ref (head (childNodes o))
  | Some ANextSibling => opt_ref (nextSibling σ r)
  | Some AInnerHTML => VStr (inner_markup_get σ r)
  | Some ALength =>
    match okind o with
    | KNodeList l => VNum (Z.of_nat (length l))
    | _ => VUndef
    end
  | None =>
    match props o !! p with
    | Some v => v
    | None => from_option VNative VUndef (method_of (okind o) p)
    end
  end.

(** [v[p]].  Reading from [undefined] or [null] throws.  A primitive has no
    own properties apart from the length of a string; the methods of the
    built-in prototypes ([toString], ...) are not represented, nor are the
    properties of host functions. *)
Definition get_prop (v : val) (p : string) : M val := λ σ,
  match v with
  | VUndef | VNull => Throw TypeError σ
  | VRef r =>
    match σ !! r with
    | Some o => Return (obj_get σ r o p) σ
    | None => Throw TypeError σ
    end
  | VStr s =>
    Return (if String.eqb p "length" then VNum (Z.of_nat (String.length s))
            else VUndef) σ
  | VBool _ | VNum _ | VNative _ => Return VUndef σ
  end.

(** [v[p] = x] in strict mode: writing to a primitive, or to an accessor
    without a setter, throws.  Host functions are treated as frozen. *)
Definition set_prop (v : val) (p : string) (x : val) : M unit := λ σ,
  match v with
  | VRef r =>
    match σ !! r with
    | Some o =>
      match accessor_of (okind o) p with
      | Some AInnerHTML =>
        Return tt
          (inner_markup_set r (match x with VNull => "" | _ => to_string x end) σ)
      | Some _ => Throw TypeError σ
      | None => Return tt (<[r := set_props (insert p x) o]> σ)
      end
    | None => Throw TypeError σ
    end
  | _ => Throw TypeError σ
  end.

(** ** The host tree *)

(** Is [a] equal to [n] or one of its ancestors?  The walk up the parent
    links is bounded by the number of objects in the heap, which is enough
    in a tree. *)
Fixpoint ancestor_upto (fuel : nat) (σ : heap) (a n : loc) : bool :=
  if decide (a = n) then true
  else match fuel with
       | 0 => false
       | S fuel' =>
         match parent_of σ n with
         | Some p => ancestor_upto fuel' σ a p
         | None => false
         end
       end.

Definition inclusive_ancestor (σ : heap) (a n : loc) : bool :=
  ancestor_upto (size σ) σ a n.

(** Take [n] out of its parent's child list. *)
Definition detach (n : loc) (σ : heap) : heap :=
  match parent_of σ n with
  | Some p =>
    alter (set_parent None) n
      (alter (set_children (filter (λ c, c ≠ n))) p σ)
  | None => σ
  end.

Fixpoint insert_before (n c : loc) (l : list loc) : list loc :=
  match l with
  | [] => [n]
  | x :: l' => if decide (x = c) then n :: x :: l' else x :: insert_before n c l'
  end.

(** Inserting before [null] appends. *)
Definition place (n : loc) (reference : option loc) (l : list loc) : list loc :=
  match reference with
  | Some c => insert_before n c l
  | None => l ++ [n]
  end.

Definition attach (n p : loc) (reference : option loc) (σ : heap) : heap :=
  alter (set_parent (Some p)) n (alter (set_children (place n reference)) p σ).

(** The host's "insert": a node has at most one parent, so it first leaves
    the parent it has. *)
Definition dom_insert (n p : loc) (reference : option loc) (σ : heap) : heap :=
  attach n p reference (detach n σ).

Definition has_element_child (σ : heap) (p : loc) (except : option loc) : bool :=
  existsb (λ c, bool_decide (Some c ≠ except)
                && from_option is_element false (kind_of σ c))
          (children_of σ p).

(** The host's validity check before an insertion or a replacement; [None]
    means the operation may proceed. *)
Definition ensure_valid (σ : heap) (p n : loc) (child : option loc)
    (replacing : bool) : option exn :=
  match kind_of σ p, kind_of σ n with
  | Some kp, Some kn =>
    if negb (match kp with KDocument | KElement _ => true | _ => false end)
    then Some HierarchyRequestError
    else if inclusive_ancestor σ n p then Some HierarchyRequestError
    else if match child with
            | Some c => negb (bool_decide (parent_of σ c = Some p))
            | None => false
            end
    then Some NotFoundError
    else if negb (match kn with KElement _ | KText => true | _ => false end)
    then Some HierarchyRequestError
    else match kp, kn with
         | KDocument, KText => Some HierarchyRequestError
         | KDocument, _ =>
           if has_element_child σ p (if replacing then child else None)
           then Some HierarchyRequestError else None
         | _, _ => None
         end
  | _, _ => Some HierarchyRequestError
  end.

(** [parent.insertBefore(node, child)] and [parent.appendChild(node)]. *)
Definition pre_insert (p n : loc) (child : option loc) : M val := λ σ,
  match ensure_valid σ p n child false with
  | Some e => Throw e σ
  | None =>
    let reference := if decide (child = Some n) then nextSibling σ n else child in
    Return (VRef n) (dom_insert n p reference σ)
  end.

(** [parent.replaceChild(node, child)] *)
Definition replace_child (p n c : loc) : M val := λ σ,
  match ensure_valid σ p n (Some c) true with
  | Some e => Throw e σ
  | None =>
    let reference := nextSibling σ c in
    let reference :=
      if decide (reference = Some n) then nextSibling σ n else reference in
    Return (VRef c) (dom_insert n p reference (detach c σ))
  end.

(** [parent.removeChild(child)] *)
Definition pre_remove (p c : loc) : M val := λ σ,
  if bool_decide (parent_of σ c = Some p)
  then Return (VRef c) (detach c σ)
  else Throw NotFoundError σ.

Definition alloc (o : obj) : M val := λ σ,
  let r := fresh (dom σ) in Return (VRef r) (<[r := o]> σ).

(** Conversion of an argument to a node; anything else is a [TypeError]. *)
Definition as_node (σ : heap) (v : val) : option loc :=
  match v with
  | VRef r =>
    match kind_of σ r with
    | Some k => if is_node k then Some r else None
    | None => None
    end
  | _ => None
  end.

Definition as_node_or_null (σ : heap) (v : val) : option (option loc) :=
  match v with
  | VNull | VUndef => Some None
  | _ => Some <$> as_node σ v
  end.

Definition arg (i : nat) (args : list val) : val :=
  default VUndef (args !! i).

(** Document order: the descendants of [r], parents before children. *)
Fixpoint descendants (fuel : nat) (σ : heap) (r : loc) : list loc :=
  match fuel with
  | 0 => []
  | S fuel' =>
    flat_map (λ c, c :: descendants fuel' σ c) (children_of σ r)
  end.

(** [n] and its ancestors, nearest first. *)
Fixpoint ancestors_from (fuel : nat) (σ : heap) (n : loc) : list loc :=
  n :: match fuel with
       | 0 => []
       | S fuel' =>
         match parent_of σ n with
         | Some p => ancestors_from fuel' σ p
         | None => []
         end
       end.

(** ** Host methods *)

Definition query_all (σ : heap) (root : loc) (sel : string) : list loc :=
  List.filter
    (λ r, from_option is_element false (kind_of σ r) && selector_test sel σ r)
    (descendants (size σ) σ root).

Definition closest_from (σ : heap) (r : loc) (sel : string) : option loc :=
  List.find
    (λ a, from_option is_element false (kind_of σ a) && selector_test sel σ a)
    (ancestors_from (size σ) σ r).

Definition node_list (items : list loc) : obj :=
  Obj (KNodeList items) ∅ None [] "".

(** Calling the host function [f] with receiver [this].  A receiver or an
    argument of the wrong type is a [TypeError]; a name or a selector the
    host rejects is an [InvalidCharacterError] or a [SyntaxError]. *)
Definition apply_native (f : native) (this : val) (args : list val)
    : M val := λ σ,
  match as_node σ this with
  | None => Throw TypeError σ
  | Some r =>
    let k := default KObject (kind_of σ r) in
    match f with
    | NCreateTextNode =>
      if decide (k = KDocument)
      then alloc (Obj KText ∅ None [] (to_string (arg 0 args))) σ
      else Throw TypeError σ
    | NCreateElement =>
      if decide (k = KDocument)
      then if valid_name (to_string (arg 0 args))
           then alloc (Obj (KElement (to_string (arg 0 args))) ∅ None [] "") σ
           else Throw InvalidCharacterError σ
      else Throw TypeError σ
    | NInsertBefore =>
      match as_node σ (arg 0 args), as_node_or_null σ (arg 1 args) with
      | Some n, Some child => pre_insert r n child σ
      | _, _ => Throw TypeError σ
      end
    | NAppendChild =>
      match as_node σ (arg 0 args) with
      | Some n => pre_insert r n None σ
      | None => Throw TypeError σ
      end
    | NReplaceChild =>
      match as_node σ (arg 0 args), as_node σ (arg 1 args) with
      | Some n, Some c => replace_child r n c σ
      | _, _ => Throw TypeError σ
      end
    | NRemoveChild =>
      match as_node σ (arg 0 args) with
      | Some c => pre_remove r c σ
      | None => Throw TypeError σ
      end
    | NQuerySelectorAll =>
      if is_element k || bool_decide (k = KDocument)
      then if selector_valid (to_string (arg 0 args))
           then alloc (node_list (query_all σ r (to_string (arg 0 args)))) σ
           else Throw SyntaxError σ
      else Throw TypeError σ
    | NQuerySelector =>
      if is_element k || bool_decide (k = KDocument)
      then if selector_valid (to_string (arg 0 args))
           then Return (opt_ref (head (query_all σ r (to_string (arg 0 args))))) σ
           else Throw SyntaxError σ
      else Throw TypeError σ
    | NMatches =>
      if is_element k
      then if selector_valid (to_string (arg 0 args))
           then Return (VBool (selector_test (to_string (arg 0 args)) σ r)) σ
           else Throw SyntaxError σ
      else Throw TypeError σ
    | NClosest =>
      if is_element k
      then if selector_valid (to_string (arg 0 args))
           then Return (opt_ref (closest_from σ r (to_string (arg 0 args)))) σ
           else Throw SyntaxError σ
      else Throw TypeError σ
    end
  end.

(** Calling a value that is not a function throws. *)
Definition call (f : val) (this : val) (args : list val) : M val :=
  match f with
  | VNative n => apply_native n this args
  | _ => throw TypeError
  end.

(** The method call [this.m(args)]: the property is read first, then the
    arguments are evaluated, then the call is made. *)
Definition invoke (this : val) (m : string) (args : M (list val))
    : M val :=
  f ← get_prop this m; a ← args; call f this a.

(** ** The mutation module *)

Definition text (txt : val) : M val :=
  invoke (VRef document) "createTextNode" (mret [VStr (to_string txt)]).

Definition normalize (el : val) : M val :=
  if is_string el then text el else mret el.

(** An omitted or [undefined] second argument takes the default ['']. *)
Definition el (nodeName html : val) : M val :=
  let html := if is_undefined html then VStr "" else html in
  if negb (truthy nodeName) then mret VNull else
  element ← invoke (VRef document) "createElement"
              (mret [VStr (to_string nodeName)]);
  (if truthy html then set_prop element "innerHTML" html else mret tt);;
  mret element.

Definition before (elm ref : val) : M val :=
  if negb (truthy elm) then mret VUndef else
  if negb (truthy ref) then mret VUndef else
  p ← get_prop ref "parentNode";
  if negb (truthy p) then mret VUndef else
  p ← get_prop ref "parentNode";
  f ← get_prop p "insertBefore";
  if negb (truthy f) then mret VUndef else
  p ← get_prop ref "parentNode";
  invoke p "insertBefore" (n ← normalize elm; mret [n; ref]);;
  mret VUndef.

Definition after (elm ref : val) : M val :=
  if negb (truthy elm) then mret VUndef else
  if negb (truthy ref) then mret VUndef else
  p ← get_prop ref "parentNode";
  if negb (truthy p) then mret VUndef else
  p ← get_prop ref "parentNode";
  f ← get_prop p "insertBefore";
  if negb (truthy f) then mret VUndef else
  p ← get_prop ref "parentNode";
  invoke p "insertBefore"
    (n ← normalize elm; s ← get_prop ref "nextSibling"; mret [n; s]);;
  mret VUndef.

Definition append (elm ref : val) : M val :=
  if negb (truthy elm) then mret VUndef else
  if negb (truthy ref) then mret VUndef else
  f ← get_prop ref "appendChild";
  if negb (truthy f) then mret VUndef else
  invoke ref "appendChild" (n ← normalize elm; mret [n]);;
  mret VUndef.

Definition prepend (elm ref : val) : M val :=
  if negb (truthy elm) then mret VUndef else
  if negb (truthy ref) then mret VUndef else
  f ← get_prop ref "appendChild";
  if negb (truthy f) then mret VUndef else
  n ← normalize elm;
  c ← get_prop ref "firstChild";
  before n c;;
  mret VUndef.

Definition replace (elm ref : val) : M val :=
  if negb (truthy elm) then mret VUndef else
  if negb (truthy ref) then mret VUndef else
  p1 ← get_prop elm "parentNode";
  parent ← (if truthy p1 then mret p1 else
            p2 ← get_prop ref "parentNode";
            if truthy p2 then mret p2 else mret VNull);
  if negb (truthy parent) then mret VUndef else
  invoke parent "replaceChild"
    (n ← normalize elm; r ← normalize ref; mret [n; r]);;
  mret VUndef.

Definition remove (elm : val) : M val :=
  if negb (truthy elm) then mret VUndef else
  p ← get_prop elm "parentNode";
  if negb (truthy p) then mret VUndef else
  p ← get_prop elm "parentNode";
  invoke p "removeChild" (mret [elm]);;
  mret VUndef.

Definition html (elm innerHtml : val) : M val :=
  if negb (truthy elm) then mret VUndef else
  i ← get_prop elm "innerHTML";
  if is_undefined i then mret VUndef else
  set_prop elm "innerHTML" (VStr (to_string innerHtml));;
  mret VUndef.

Definition setAttr (elm attribute value : val) : M val :=
  if negb (truthy elm) then mret VUndef else
  set_prop elm (to_string attribute) value;;
  mret VUndef.

Definition attr (elm attribute : val) : M val :=
  if negb (truthy elm) then mret VNull else
  get_prop elm (to_string attribute).

Definition setData (elm attribute value : val) : M val :=
  if negb (truthy elm) then mret VUndef else
  set_prop elm ("data-" +:+ to_string attribute) value;;
  mret VUndef.

Definition data (elm attribute : val) : M val :=
  if negb (truthy elm) then mret VNull else
  get_prop elm ("data-" +:+ to_string attribute).

(** ** The query module *)

Definition select (selector : val) : M val :=
  f ← get_prop (VRef document) "querySelectorAll";
  if negb (truthy f) then mret VNull else
  invoke (VRef document) "querySelectorAll" (mret [selector]).

Definition selectFirst (selector : val) : M val :=
  f ← get_prop (VRef document) "querySelector";
  if negb (truthy f) then mret VNull else
  invoke (VRef document) "querySelector" (mret [selector]).

Definition find : val → M val := selectFirst.

Definition matches (el selector : val) : M val :=
  if negb (truthy el) then mret VNull else
  f ← get_prop el "matches";
  if negb (truthy f) then mret VNull else
  invoke el "matches" (mret [selector]).

Definition parent (el : val) : M val :=
  if negb (truthy el) then mret VNull else
  p ← get_prop el "parentNode";
  if negb (truthy p) then mret VNull else
  get_prop el "parentNode".

Definition closest (el selector : val) : M val :=
  if negb (truthy el) then mret VNull else
  f ← get_prop el "closest";
  if negb (truthy f) then mret VNull else
  if negb (truthy selector) then mret VNull else
  invoke el "closest" (mret [VStr (to_string selector)]).

End Dombili.

(** ** Vocabulary of the statements *)

(** The document is the host's and its method [m] is not shadowed by an own
    property. *)
Definition document_provides (σ : heap) (m : string) : Prop :=
  ∃ o, σ !! document = Some o ∧ okind o = KDocument ∧ props o !! m = None.

(** A tree node that has no parent. *)
Definition detached (σ : heap) (v : val) : Prop :=
  ∃ r o, v = VRef r ∧ σ !! r = Some o ∧ is_node (okind o) = true ∧
         parentNode o = None.

(** Child lists have no repetitions, every child is a tree node whose
    parent link points back, and every parent link leads to an object that
    lists the node among its children. *)
Definition node_ok (σ : heap) (r : loc) (o : obj) : Prop :=
  NoDup (childNodes o) ∧
  Forall (λ c, parent_of σ c = Some r ∧ is_node <$> kind_of σ c = Some true)
         (childNodes o) ∧
  Is_true (match parentNode o with
           | Some q => bool_decide (r ∈ children_of σ q)
           | None => true
           end).

Definition tree_ok (σ : heap) : Prop := map_Forall (node_ok σ) σ.

#[global] Instance tree_ok_dec σ : Decision (tree_ok σ).
Proof. unfold tree_ok, node_ok. apply _. Defined.

(** What allocating the trees [l] does to the heap: the objects [cs] are
    new, the old ones are as they were, there is one new object for every
    node, and the trees can be read off any heap that has the new objects,
    given fuel for their nodes. *)
Definition allocates (σ σ' : heap) (cs : list loc) (l : list mtree) : Prop :=
  (∀ x, is_Some (σ !! x) → σ' !! x = σ !! x) ∧
  size σ' = size σ + forest_size l ∧
  (∀ τ fuel,
     (∀ x, σ !! x = None → is_Some (σ' !! x) → τ !! x = σ' !! x) →
     (forest_size l ≤ fuel)%nat →
     flat_map (markup_of fuel τ) cs = l).

(** The heap after [createTextNode(s)]. *)
Definition text_node (s : string) : obj := Obj KText ∅ None [] s.
Definition with_text (σ : heap) (s : string) : heap :=
  <[fresh (dom σ) := text_node s]> σ.

(** The call [replace] ends with, once the parent is known. *)
Definition replaceChild_in `{SelectorEngine} (elm ref parent : val) : M val :=
  invoke parent "replaceChild"
    (n ← normalize elm; r ← normalize ref; mret [n; r]);;
  mret VUndef.

(** ** A sample host and a sample page

    A host for the examples.  Its selectors are the type selectors and [*];
    its names are the ASCII names of XML; its markup is plain text (no [<],
    no [&]) and the markup of the examples, which it parses as a browser
    does; it serializes elements and text as the HTML standard prescribes.
    Markup outside that range is not the sample's business and yields no
    nodes. *)

Definition is_letter (c : ascii) : bool :=
  let n := nat_of_ascii c in
  (Nat.leb 65 n && Nat.leb n 90) || (Nat.leb 97 n && Nat.leb n 122).

Definition is_digit (c : ascii) : bool :=
  let n := nat_of_ascii c in Nat.leb 48 n && Nat.leb n 57.

Definition is_one_of (cs : string) (c : ascii) : bool :=
  existsb (Ascii.eqb c) (String.list_ascii_of_string cs).

Definition string_forall (f : ascii → bool) (s : string) : bool :=
  forallb f (String.list_ascii_of_string s).

Definition sample_name (s : string) : bool :=
  match s with
  | EmptyString => false
  | String c s' =>
    (is_letter c || is_one_of ":_" c)
    && string_forall (λ c, is_letter c || is_digit c || is_one_of ":_-." c) s'
  end.

Definition sample_selector (sel : string) : option (heap → loc → bool) :=
  if String.eqb sel "*" then
    Some (λ σ r, from_option is_element false (kind_of σ r))
  else
    match sel with
    | EmptyString => None
    | String c s' =>
      if is_letter c
         && string_forall (λ c, is_letter c || is_digit c || is_one_of "_-" c) s'
      then Some (λ σ r, match kind_of σ r with
                        | Some (KElement t) => String.eqb t sel
                        | _ => false
                        end)
      else None
    end.

Definition sample_parse (m : string) : list mtree :=
  if String.eqb m "" then []
  else if String.eqb m "<b>x</b>" || String.eqb m "<b>x"
  then [MElem "b" [MText "x"]]
  else if string_forall (λ c, negb (is_one_of "<&" c)) m then [MText m]
  else [].

Definition void_elements : list string :=
  ["area"; "base"; "br"; "col"; "embed"; "hr"; "img"; "input"; "link";
   "meta"; "source"; "track"; "wbr"].

Fixpoint escape_text (s : string) : string :=
  match s with
  | EmptyString => EmptyString
  | String c s' =>
    (if Ascii.eqb c "&"%char then "&amp;"
     else if Ascii.eqb c "<"%char then "&lt;"
     else if Ascii.eqb c ">"%char then "&gt;"
     else String c EmptyString) +:+ escape_text s'
  end.

Fixpoint sample_serialize (t : mtree) : string :=
  match t with
  | MText s => escape_text s
  | MElem tag kids =>
    "<" +:+ tag +:+ ">" +:+
    (if bool_decide (tag ∈ void_elements) then ""
     else String.concat "" (map sample_serialize kids) +:+ "</" +:+ tag +:+ ">")
  end.

Definition tag_engine : SelectorEngine :=
  {| selector_parse := sample_selector;
     valid_name := sample_name;
     parse_markup := λ _, sample_parse;
     serialize_markup := λ _ l, String.concat "" (map sample_serialize l);
     parse_markup_empty := λ _, eq_refl;
     serialize_markup_empty := λ _, eq_refl |}.

Definition sample_heap : heap :=
  list_to_map
    [ (1%positive, Obj KDocument ∅ None [2%positive] "");
      (2%positive, Obj (KElement "ul") ∅ (Some 1%positive)
                       [3%positive; 4%positive] "");
      (3%positive, Obj (KElement "li") ∅ (Some 2%positive) [] "");
      (4%positive, Obj (KElement "li") ∅ (Some 2%positive) [] "");
      (5%positive, Obj (KElement "li") ∅ None [] "");
      (6%positive, Obj (KElement "div") ∅ None [] "");
      (7%positive, Obj KObject {[ "parentNode" := VRef 8%positive ]} None [] "");
      (8%positive, Obj KObject ∅ None [] "") ].

(** The objects of the sample page by name. *)
Definition sample_ul : obj :=
  Obj (KElement "ul") ∅ (Some 1%positive) [3%positive; 4%positive] "".
Definition sample_li (p : option loc) : obj := Obj (KElement "li") ∅ p [] "".
Definition sample_div : obj := Obj (KElement "div") ∅ None [] "".

(** * Properties *)

(** ** Running the monad *)

Lemma run_bind {A B} (m : M A) (k : A → M B) σ :
  (m ≫= k) σ =
  match m σ with Return a σ' => k a σ' | Throw e σ' => Throw e σ' end.
Proof. reflexivity. Qed.

Lemma run_ret {A} (a : A) σ : (mret a : M A) σ = Return a σ.
Proof. reflexivity. Qed.

Lemma get_prop_ref `{SelectorEngine} σ r o p :
  σ !! r = Some o → get_prop (VRef r) p σ = Return (obj_get σ r o p) σ.
Proof. intros Hr. unfold get_prop. by rewrite Hr. Qed.

Lemma kind_of_ref σ r o : σ !! r = Some o → kind_of σ r = Some (okind o).
Proof. intros Hr. unfold kind_of. by rewrite Hr. Qed.

Lemma as_node_ref σ r o :
  σ !! r = Some o → is_node (okind o) = true → as_node σ (VRef r) = Some r.
Proof. intros Hr Hk. unfold as_node. by rewrite (kind_of_ref _ _ o), Hk. Qed.

(** What a tree node answers when asked for its parent. *)
Lemma obj_get_parentNode `{SelectorEngine} σ r o :
  is_node (okind o) = true → obj_get σ r o "parentNode" = opt_ref (parentNode o).
Proof. unfold obj_get. by destruct (okind o). Qed.

Lemma obj_get_firstChild `{SelectorEngine} σ r o :
  is_node (okind o) = true →
  obj_get σ r o "firstChild" = opt_ref (head (childNodes o)).
Proof. unfold obj_get. by destruct (okind o). Qed.

Lemma obj_get_nextSibling `{SelectorEngine} σ r o :
  is_node (okind o) = true →
  obj_get σ r o "nextSibling" = opt_ref (nextSibling σ r).
Proof. unfold obj_get. by destruct (okind o). Qed.

(** A method that no own property shadows is the host's. *)
Lemma obj_get_method `{SelectorEngine} σ r o m :
  accessor_of (okind o) m = None → props o !! m = None →
  obj_get σ r o m = from_option VNative VUndef (method_of (okind o) m).
Proof. intros Ha Hp. unfold obj_get. by rewrite Ha, Hp. Qed.

(** ** Guards: absent inputs *)

(** Every mutation returns at once, with the heap as it was, when its first
    argument is falsy; the insertions and [replace] do the same for a falsy
    reference. *)
Lemma mutation_absent_node `{SelectorEngine} (elm x y : val) σ :
  truthy elm = false →
  before elm x σ = Return VUndef σ ∧ after elm x σ = Return VUndef σ ∧
  append elm x σ = Return VUndef σ ∧ prepend elm x σ = Return VUndef σ ∧
  replace elm x σ = Return VUndef σ ∧ remove elm σ = Return VUndef σ ∧
  html elm x σ = Return VUndef σ ∧ setAttr elm x y σ = Return VUndef σ ∧
  setData elm x y σ = Return VUndef σ.
Proof.
  intros He.
  unfold before, after, append, prepend, replace, remove, html, setAttr, setData.
  rewrite He. simpl. repeat split.
Qed.

Lemma mutation_absent_reference `{SelectorEngine} (elm ref : val) σ :
  truthy ref = false →
  before elm ref σ = Return VUndef σ ∧ after elm ref σ = Return VUndef σ ∧
  append elm ref σ = Return VUndef σ ∧ prepend elm ref σ = Return VUndef σ ∧
  replace elm ref σ = Return VUndef σ.
Proof.
  intros Hr. unfold before, after, append, prepend, replace.
  rewrite Hr. destruct (truthy elm); simpl; repeat split.
Qed.

Lemma fresh_loc_unused (σ : heap) : σ !! fresh (dom σ) = None.
Proof. apply not_elem_of_dom. apply is_fresh. Qed.

Lemma text_fresh_node `{SelectorEngine} σ txt :
  document_provides σ "createTextNode" →
  text txt σ =
  Return (VRef (fresh (dom σ)))
         (<[fresh (dom σ) := Obj KText ∅ None [] (to_string txt)]> σ).
Proof.
  intros (o & Hd & Hk & Hp).
  unfold text, invoke. rewrite run_bind, (get_prop_ref _ _ o) by done.
  rewrite obj_get_method by (by rewrite ?Hk). rewrite Hk. simpl.
  rewrite run_bind, run_ret. simpl.
  unfold apply_native. rewrite (as_node_ref _ _ o), (kind_of_ref _ _ o) by (by rewrite ?Hk).
  rewrite Hk. reflexivity.
Qed.

Lemma normalize_not_string `{SelectorEngine} σ v :
  is_string v = false → normalize v σ = Return v σ.
Proof. intros Hv. unfold normalize. by rewrite Hv. Qed.

(** C4. For a string [s], [normalize] returns a newly allocated Text node
    whose data is [s]; any value that is not a string is returned as it is
    and the heap is not touched. *)
Theorem normalize_text_or_identity `{SelectorEngine} σ v :
  (∀ s, v = VStr s → document_provides σ "createTextNode" →
     ∃ r, σ !! r = None ∧
          normalize v σ = Return (VRef r) (<[r := Obj KText ∅ None [] s]> σ)) ∧
  (is_string v = false → normalize v σ = Return v σ).
Proof.
  split.
  - intros s -> Hdoc. exists (fresh (dom σ)). split; [apply fresh_loc_unused|].
    unfold normalize. simpl. by rewrite text_fresh_node.
  - apply normalize_not_string.
Qed.

Lemma createElement_run `{SelectorEngine} σ name :
  document_provides σ "createElement" → valid_name name = true →
  invoke (VRef document) "createElement" (mret [VStr name]) σ =
  Return (VRef (fresh (dom σ)))
    (<[fresh (dom σ) := Obj (KElement name) ∅ None [] ""]> σ).
Proof.
  intros (o & Hd & Hk & Hp) Hname.
  unfold invoke. rewrite run_bind, (get_prop_ref _ _ o) by done.
  rewrite obj_get_method by (by rewrite ?Hk). rewrite Hk. simpl.
  rewrite run_bind, run_ret. simpl. unfold apply_native.
  rewrite (as_node_ref _ _ o), (kind_of_ref _ _ o) by (by rewrite ?Hk).
  rewrite Hk. simpl. by rewrite Hname.
Qed.

Lemma createElement_rejected `{SelectorEngine} σ name :
  document_provides σ "createElement" → valid_name name = false →
  invoke (VRef document) "createElement" (mret [VStr name]) σ =
  Throw InvalidCharacterError σ.
Proof.
  intros (o & Hd & Hk & Hp) Hname.
  unfold invoke. rewrite run_bind, (get_prop_ref _ _ o) by done.
  rewrite obj_get_method by (by rewrite ?Hk). rewrite Hk. simpl.
  rewrite run_bind, run_ret. simpl. unfold apply_native.
  rewrite (as_node_ref _ _ o), (kind_of_ref _ _ o) by (by rewrite ?Hk).
  rewrite Hk. simpl. by rewrite Hname.
Qed.

(** An element without children serializes to the empty string, and
    assigning the empty string to it changes nothing. *)
Lemma inner_markup_get_empty `{SelectorEngine} σ r :
  children_of σ r = [] → inner_markup_get σ r = "".
Proof.
  intros Hr. unfold inner_markup_get. rewrite Hr.
  destruct (kind_of σ r) as [[]|]; try done. apply serialize_markup_empty.
Qed.

Lemma inner_markup_set_empty `{SelectorEngine} σ r :
  children_of σ r = [] → inner_markup_set r "" σ = σ.
Proof.
  intros Hr. unfold inner_markup_set.
  destruct (kind_of σ r) as [[]|]; try done.
  rewrite Hr, parse_markup_empty. simpl.
  apply alter_id. intros o Ho. unfold children_of in Hr. rewrite Ho in Hr.
  simpl in Hr. destruct o. unfold set_children. simpl in *. by rewrite Hr.
Qed.

Lemma get_innerHTML `{SelectorEngine} σ r o t :
  σ !! r = Some o → okind o = KElement t →
  get_prop (VRef r) "innerHTML" σ = Return (VStr (inner_markup_get σ r)) σ.
Proof.
  intros Hr Hk. rewrite (get_prop_ref _ _ o) by done.
  unfold obj_get. by rewrite Hk.
Qed.

Lemma set_innerHTML_run `{SelectorEngine} σ r o t m :
  σ !! r = Some o → okind o = KElement t →
  set_prop (VRef r) "innerHTML" (VStr m) σ =
  Return tt (inner_markup_set r m σ).
Proof. intros Hr Hk. unfold set_prop. by rewrite Hr, Hk. Qed.

(** ** Queries *)

(** C7. [matches] answers [null] for an absent node and for a node without
    a [matches] capability; for an element and a selector the host can parse
    it answers the host's verdict on that element and the selector, as a
    boolean.  (A selector the host cannot parse makes [el.matches] throw.) *)
Theorem matches_null_or_verdict `{SelectorEngine} σ el selector :
  (truthy el = false → matches el selector σ = Return VNull σ) ∧
  (∀ f, truthy el = true → get_prop el "matches" σ = Return f σ →
        truthy f = false → matches el selector σ = Return VNull σ) ∧
  (∀ r o t, el = VRef r → σ !! r = Some o → okind o = KElement t →
            props o !! "matches" = None →
            selector_valid (to_string selector) = true →
            matches el selector σ =
            Return (VBool (selector_test (to_string selector) σ r)) σ).
Proof.
  repeat split.
  - intros He. unfold matches. by rewrite He.
  - intros f He Hget Hf. unfold matches. rewrite He. simpl.
    by rewrite run_bind, Hget, Hf.
  - intros r o t -> Hr Hk Hp Hsel. unfold matches. simpl.
    rewrite run_bind, (get_prop_ref _ _ o) by done.
    rewrite obj_get_method by (by rewrite ?Hk). rewrite Hk. simpl.
    unfold invoke. rewrite run_bind, (get_prop_ref _ _ o) by done.
    rewrite obj_get_method by (by rewrite ?Hk). rewrite Hk. simpl.
    rewrite run_bind, run_ret. simpl. unfold apply_native.
    rewrite (as_node_ref _ _ o), (kind_of_ref _ _ o) by (by rewrite ?Hk).
    change (arg 0 [selector]) with selector. rewrite Hk, Hsel. by simpl.
Qed.

Lemma filter_none {A} (f : A → bool) (l : list A) :
  (∀ x, x ∈ l → f x = false) → List.filter f l = [].
Proof.
  induction l as [|x l IH]; intros Hl; [done|]. simpl.
  rewrite (Hl x) by apply list_elem_of_here.
  apply IH. intros y Hy. apply Hl. by apply list_elem_of_further.
Qed.

(** C8. [select] answers [null] when the document has no [querySelectorAll];
    when it has one, the host can parse the selector and no element below
    the document satisfies it, the answer is a new, empty collection.  (A
    selector the host cannot parse makes [querySelectorAll] throw.) *)
Theorem select_null_or_empty `{SelectorEngine} σ selector :
  (∀ f, get_prop (VRef document) "querySelectorAll" σ = Return f σ →
        truthy f = false → select selector σ = Return VNull σ) ∧
  (document_provides σ "querySelectorAll" →
   selector_valid (to_string selector) = true →
   (∀ r t, r ∈ descendants (size σ) σ document →
           kind_of σ r = Some (KElement t) →
           selector_test (to_string selector) σ r = false) →
   ∃ c, σ !! c = None ∧
        select selector σ = Return (VRef c) (<[c := node_list []]> σ)).
Proof.
  split.
  - intros f Hget Hf. unfold select. by rewrite run_bind, Hget, Hf.
  - intros (o & Hd & Hk & Hp) Hsel Hnone. exists (fresh (dom σ)).
    split; [apply fresh_loc_unused|].
    unfold select. rewrite run_bind, (get_prop_ref _ _ o) by done.
    rewrite obj_get_method by (by rewrite ?Hk). rewrite Hk. simpl.
    unfold invoke. rewrite run_bind, (get_prop_ref _ _ o) by done.
    rewrite obj_get_method by (by rewrite ?Hk). rewrite Hk. simpl.
    rewrite run_bind, run_ret. simpl. unfold apply_native.
    rewrite (as_node_ref _ _ o), (kind_of_ref _ _ o) by (by rewrite ?Hk).
    change (arg 0 [selector]) with selector.
    rewrite Hk, Hsel. simpl. unfold alloc, query_all.
    rewrite filter_none; [done|].
    intros r Hr. destruct (kind_of σ r) as [[]|] eqn:Hkr; simpl; try done.
    by eapply Hnone.
Qed.

(** ** Removal *)

(** C9. Removing [null], [undefined] or a node without a parent returns
    normally and leaves the heap, hence the node and the tree, as it was. *)
Theorem remove_detached_noop `{SelectorEngine} σ elm :
  elm = VNull ∨ elm = VUndef ∨ detached σ elm →
  remove elm σ = Return VUndef σ.
Proof.
  intros [-> | [-> | (r & o & -> & Hr & Hk & Hp)]]; [done..|].
  unfold remove. simpl.
  rewrite run_bind, (get_prop_ref _ _ o) by done.
  by rewrite obj_get_parentNode, Hp.
Qed.

(** ** Attributes *)

Lemma length_append_string (s1 s2 : string) :
  String.length (s1 +:+ s2) = String.length s1 + String.length s2.
Proof. induction s1 as [|c s1 IH]; simpl; [done|]. by rewrite IH. Qed.

Lemma data_key_fresh (s : string) : "data-" +:+ s ≠ s.
Proof.
  intros Heq. apply (f_equal String.length) in Heq.
  rewrite length_append_string in Heq. simpl in Heq. lia.
Qed.

(** No accessor of a host object has a name that starts with [data-]. *)
Lemma data_key_not_accessor k s : accessor_of k ("data-" +:+ s) = None.
Proof. by destruct k. Qed.

(** Writing an own property leaves the tree's links alone. *)
Lemma parent_of_set_props (σ : heap) r o f x :
  σ !! r = Some o → parent_of (<[r := set_props f o]> σ) x = parent_of σ x.
Proof.
  intros Hr. unfold parent_of. destruct (decide (r = x)) as [->|Hne].
  - by rewrite lookup_insert_eq, Hr.
  - by rewrite lookup_insert_ne.
Qed.

Lemma children_of_set_props (σ : heap) r o f x :
  σ !! r = Some o → children_of (<[r := set_props f o]> σ) x = children_of σ x.
Proof.
  intros Hr. unfold children_of. destruct (decide (r = x)) as [->|Hne].
  - by rewrite lookup_insert_eq, Hr.
  - by rewrite lookup_insert_ne.
Qed.

Lemma nextSibling_set_props (σ : heap) r o f x :
  σ !! r = Some o → nextSibling (<[r := set_props f o]> σ) x = nextSibling σ x.
Proof.
  intros Hr. unfold nextSibling. rewrite (parent_of_set_props _ _ _ _ _ Hr).
  destruct (parent_of σ x) as [p|]; simpl; [|done].
  by rewrite (children_of_set_props _ _ _ _ _ Hr).
Qed.

(** Own properties are not part of the tree below an element. *)
Lemma markup_of_set_props fuel (σ : heap) r o f x :
  σ !! r = Some o →
  markup_of fuel (<[r := set_props f o]> σ) x = markup_of fuel σ x.
Proof.
  intros Hr. revert x. induction fuel as [|fuel IH]; intros x; [done|].
  simpl. destruct (decide (r = x)) as [->|Hne].
  - rewrite lookup_insert_eq, Hr. cbn [set_props okind childNodes content].
    destruct (okind o); try done. f_equal. f_equal. by apply flat_map_ext.
  - rewrite lookup_insert_ne by done. destruct (σ !! x) as [ox|]; [|done].
    destruct (okind ox); try done. f_equal. f_equal. by apply flat_map_ext.
Qed.

Lemma kind_of_set_props (σ : heap) r o f x :
  σ !! r = Some o → kind_of (<[r := set_props f o]> σ) x = kind_of σ x.
Proof.
  intros Hr. unfold kind_of. destruct (decide (r = x)) as [->|Hne].
  - by rewrite lookup_insert_eq, Hr.
  - by rewrite lookup_insert_ne.
Qed.

Lemma size_set_props (σ : heap) r o f :
  σ !! r = Some o → size (<[r := set_props f o]> σ) = size σ.
Proof.
  intros Hr. rewrite <- !size_dom. f_equal. rewrite dom_insert_L.
  apply elem_of_dom_2 in Hr. apply subseteq_union_1_L.
  by apply singleton_subseteq_l.
Qed.

Lemma inner_markup_get_set_props `{SelectorEngine} (σ : heap) r o f x :
  σ !! r = Some o →
  inner_markup_get (<[r := set_props f o]> σ) x = inner_markup_get σ x.
Proof.
  intros Hr. unfold inner_markup_get.
  rewrite (kind_of_set_props _ _ _ _ _ Hr), (size_set_props _ _ _ _ Hr).
  rewrite (children_of_set_props _ _ _ _ _ Hr).
  destruct (kind_of σ x) as [[]|]; try done. f_equal.
  apply flat_map_ext. intros y. by apply markup_of_set_props.
Qed.

(** C10. [setData] on an object stores the value as the own property
    [data-<name>]: [data] with the same name and [attr] with the prefixed
    name both read it back, and [attr] with the bare name reads what it read
    before. *)
Theorem setData_is_prefixed_property `{SelectorEngine} σ r o a v :
  σ !! r = Some o →
  let key := "data-" +:+ to_string a in
  let σ' := <[r := set_props (insert key v) o]> σ in
  setData (VRef r) a v σ = Return VUndef σ' ∧
  data (VRef r) a σ' = Return v σ' ∧
  attr (VRef r) (VStr key) σ' = Return v σ' ∧
  (∀ w, attr (VRef r) a σ = Return w σ → attr (VRef r) a σ' = Return w σ').
Proof.
  intros Hr key σ'.
  assert (Hread : get_prop (VRef r) key σ' = Return v σ').
  { unfold σ'. erewrite get_prop_ref by apply lookup_insert_eq.
    unfold obj_get, set_props. cbn [okind props]. unfold key.
    rewrite data_key_not_accessor. by rewrite lookup_insert_eq. }
  repeat split.
  - unfold setData. cbn [truthy negb]. rewrite run_bind. unfold set_prop.
    by rewrite Hr, data_key_not_accessor.
  - exact Hread.
  - exact Hread.
  - intros w. unfold attr. cbn [truthy negb].
    rewrite (get_prop_ref _ _ o) by done. intros [= <-].
    unfold σ'. erewrite get_prop_ref by apply lookup_insert_eq. f_equal.
    unfold obj_get. rewrite (nextSibling_set_props _ _ _ _ _ Hr).
    rewrite (inner_markup_get_set_props _ _ _ _ _ Hr).
    cbn [okind props parentNode childNodes content set_props].
    destruct (accessor_of (okind o) (to_string a)); [done|].
    rewrite lookup_insert_ne; [done|]. apply data_key_fresh.
Qed.

(** ** Child lists *)

Lemma filter_ne_id (n : loc) (l : list loc) :
  n ∉ l → filter (λ c, c ≠ n) l = l.
Proof.
  induction l as [|x l IH]; intros Hn; [done|].
  apply not_elem_of_cons in Hn as [Hx Hl].
  rewrite filter_cons_True by done. by rewrite IH.
Qed.

Lemma filter_ne_head (n : loc) (l : list loc) :
  n ∉ l → filter (λ c, c ≠ n) (n :: l) = l.
Proof.
  intros Hn. rewrite filter_cons_False by (by intros ?). by apply filter_ne_id.
Qed.

Lemma next_in_middle (r : loc) (l1 l2 : list loc) :
  r ∉ l1 → next_in r (l1 ++ r :: l2) = head l2.
Proof.
  induction l1 as [|x l1 IH]; intros Hr; simpl.
  - by rewrite decide_True.
  - apply not_elem_of_cons in Hr as [Hx Hl]. rewrite decide_False by done.
    by apply IH.
Qed.

Lemma insert_before_middle (n x : loc) (l1 l2 : list loc) :
  x ∉ l1 → insert_before n x (l1 ++ x :: l2) = l1 ++ n :: x :: l2.
Proof.
  induction l1 as [|y l1 IH]; intros Hx; simpl.
  - by rewrite decide_True.
  - apply not_elem_of_cons in Hx as [Hy Hl]. rewrite decide_False by done.
    by rewrite IH.
Qed.

Lemma not_elem_of_filter_ne (n x : loc) (l : list loc) :
  x ∉ l → x ∉ filter (λ c, c ≠ n) l.
Proof. intros Hx Hin. apply list_elem_of_filter in Hin as [_ Hin]. done. Qed.

(** What [insertBefore(n, x)] does to the child list [l1 ++ x :: l2]: the
    reference moves on to the next sibling when [x] is [n] itself, [n]
    leaves its old place, and is put back in front of the reference. *)
Lemma place_before_child (n x : loc) (l1 l2 : list loc) :
  NoDup (l1 ++ x :: l2) →
  place n (if decide (Some x = Some n) then next_in n (l1 ++ x :: l2)
           else Some x)
        (filter (λ c, c ≠ n) (l1 ++ x :: l2)) =
  if decide (n = x) then l1 ++ x :: l2
  else filter (λ c, c ≠ n) l1 ++ n :: x :: filter (λ c, c ≠ n) l2.
Proof.
  intros Hnd. apply NoDup_app in Hnd as (Hnd1 & Hdisj & Hnd2).
  apply NoDup_cons in Hnd2 as [Hx2 Hnd2].
  assert (Hx1 : x ∉ l1).
  { intros Hin. apply (Hdisj x Hin). apply list_elem_of_here. }
  destruct (decide (n = x)) as [->|Hne].
  - rewrite decide_True by done. rewrite next_in_middle by done.
    rewrite filter_app, filter_ne_head, (filter_ne_id x l1) by done.
    destruct l2 as [|y l2]; simpl.
    + by rewrite app_nil_r.
    + apply insert_before_middle. intros Hy. apply (Hdisj y Hy).
      apply list_elem_of_further, list_elem_of_here.
  - rewrite decide_False by congruence. simpl.
    rewrite filter_app, filter_cons_True by done.
    apply insert_before_middle. by apply not_elem_of_filter_ne.
Qed.

(** The same for [insertBefore(n, r.nextSibling)] with [r] in the list:
    [n] ends up right behind [r]. *)
Lemma place_after_reference (n r : loc) (l1 l2 : list loc) :
  NoDup (l1 ++ r :: l2) →
  place n (if decide (head l2 = Some n) then next_in n (l1 ++ r :: l2)
           else head l2)
        (filter (λ c, c ≠ n) (l1 ++ r :: l2)) =
  if decide (n = r) then l1 ++ r :: l2
  else filter (λ c, c ≠ n) l1 ++ r :: n :: filter (λ c, c ≠ n) l2.
Proof.
  intros Hnd.
  assert (Hnd' := Hnd). apply NoDup_app in Hnd' as (Hnd1 & Hdisj & Hnd2).
  apply NoDup_cons in Hnd2 as [Hr2 Hnd2].
  assert (Hr1 : r ∉ l1).
  { intros Hin. apply (Hdisj r Hin). apply list_elem_of_here. }
  destruct l2 as [|x l2].
  - cbn [head]. rewrite decide_False by done. cbn [place].
    rewrite filter_app. destruct (decide (n = r)) as [->|Hne].
    + rewrite filter_ne_head by done. rewrite filter_ne_id by done.
      by rewrite app_nil_r.
    + rewrite filter_cons_True by done. by rewrite <- app_assoc.
  - cbn [head]. change (l1 ++ r :: x :: l2) with (l1 ++ [r] ++ x :: l2) in *.
    rewrite app_assoc in *.
    assert (Hgen := place_before_child n x (l1 ++ [r]) l2 Hnd).
    destruct (decide (Some x = Some n)) as [Hxn|Hxn].
    + injection Hxn as ->. rewrite !decide_True in Hgen by done.
      rewrite decide_False by (intros ->; apply Hr2, list_elem_of_here).
      rewrite Hgen. rewrite <- app_assoc. cbn [app].
      apply NoDup_cons in Hnd2 as [Hn2 _].
      rewrite filter_ne_head by done. f_equal. symmetry. apply filter_ne_id.
      intros Hin. apply (Hdisj n Hin).
      apply list_elem_of_further, list_elem_of_here.
    + assert (n ≠ x) by congruence. rewrite decide_False in Hgen by done.
      rewrite Hgen. rewrite filter_app. destruct (decide (n = r)) as [->|Hne].
      * rewrite filter_ne_head by apply not_elem_of_nil. rewrite app_nil_r.
        rewrite (filter_ne_id r l1) by done.
        rewrite <- app_assoc. cbn [app]. do 3 f_equal. apply filter_ne_id.
        intros Hin. apply Hr2. by apply list_elem_of_further.
      * rewrite filter_cons_True by done. rewrite <- app_assoc. cbn [app].
        rewrite (filter_cons_True _ x) by done. done.
Qed.

Lemma last_snoc_filter (n r : loc) (l : list loc) :
  last (if decide (n = r) then l ++ [r]
        else filter (λ c, c ≠ n) l ++ [r; n]) = Some n.
Proof.
  destruct (decide (n = r)) as [->|Hne].
  - apply last_snoc.
  - by rewrite (app_assoc _ [r] [n]), last_snoc.
Qed.

(** ** Well-formed trees *)

Lemma tree_ok_nodup σ p op : tree_ok σ → σ !! p = Some op → NoDup (childNodes op).
Proof. intros Hok Hp. by destruct (Hok p op Hp). Qed.

Lemma tree_ok_child σ p op c :
  tree_ok σ → σ !! p = Some op → c ∈ childNodes op →
  ∃ oc, σ !! c = Some oc ∧ is_node (okind oc) = true ∧ parentNode oc = Some p.
Proof.
  intros Hok Hp Hc. destruct (Hok p op Hp) as (_ & Hall & _).
  rewrite Forall_forall in Hall. destruct (Hall c Hc) as [Hpar Hkind].
  unfold parent_of, kind_of in *. destruct (σ !! c) as [oc|]; [|done].
  exists oc. simpl in *. split; [done|]. split; congruence.
Qed.

Lemma tree_ok_parent σ r q :
  tree_ok σ → parent_of σ r = Some q → r ∈ children_of σ q.
Proof.
  intros Hok Hr. unfold parent_of in Hr.
  destruct (σ !! r) as [o|] eqn:Ho; [|done]. simpl in Hr.
  destruct (Hok r o Ho) as (_ & _ & Hpar). rewrite Hr in Hpar.
  by apply bool_decide_unpack in Hpar.
Qed.

Lemma tree_ok_not_child σ p op n :
  tree_ok σ → σ !! p = Some op → parent_of σ n ≠ Some p → n ∉ childNodes op.
Proof.
  intros Hok Hp Hn Hin.
  destruct (tree_ok_child σ p op n Hok Hp Hin) as (oc & Hc & _ & Hpar).
  apply Hn. unfold parent_of. by rewrite Hc.
Qed.

(** ** Links under updates *)

Lemma children_of_lookup (σ : heap) p op :
  σ !! p = Some op → children_of σ p = childNodes op.
Proof. intros Hp. unfold children_of. by rewrite Hp. Qed.

Lemma parent_of_lookup (σ : heap) n on :
  σ !! n = Some on → parent_of σ n = parentNode on.
Proof. intros Hn. unfold parent_of. by rewrite Hn. Qed.

Lemma children_of_alter_parent (σ : heap) v n p :
  children_of (alter (set_parent v) n σ) p = children_of σ p.
Proof.
  unfold children_of. rewrite lookup_alter. case_decide; [subst|done].
  by destruct (σ !! p).
Qed.

Lemma children_of_alter_children (σ : heap) f q p :
  children_of (alter (set_children f) q σ) p =
  if decide (q = p) then from_option (λ o, f (childNodes o)) [] (σ !! p)
  else children_of σ p.
Proof.
  unfold children_of. rewrite lookup_alter. case_decide; [subst|done].
  by destruct (σ !! p).
Qed.

Lemma parent_of_alter_children (σ : heap) f q x :
  parent_of (alter (set_children f) q σ) x = parent_of σ x.
Proof.
  unfold parent_of. rewrite lookup_alter. case_decide; [subst|done].
  by destruct (σ !! x).
Qed.

Lemma parent_of_alter_parent (σ : heap) v n x :
  parent_of (alter (set_parent v) n σ) x =
  if decide (n = x) then (σ !! x) ≫= (λ _, v) else parent_of σ x.
Proof.
  unfold parent_of. rewrite lookup_alter. case_decide; [subst|done].
  by destruct (σ !! x).
Qed.

Lemma kind_of_alter_parent (σ : heap) v n x :
  kind_of (alter (set_parent v) n σ) x = kind_of σ x.
Proof.
  unfold kind_of. rewrite lookup_alter. case_decide; [subst|done].
  by destruct (σ !! x).
Qed.

Lemma kind_of_alter_children (σ : heap) f n x :
  kind_of (alter (set_children f) n σ) x = kind_of σ x.
Proof.
  unfold kind_of. rewrite lookup_alter. case_decide; [subst|done].
  by destruct (σ !! x).
Qed.

(** ** Detaching and inserting *)

Lemma detach_children (σ : heap) n p :
  children_of (detach n σ) p =
  if decide (parent_of σ n = Some p)
  then filter (λ c, c ≠ n) (children_of σ p)
  else children_of σ p.
Proof.
  unfold detach. destruct (parent_of σ n) as [q|] eqn:Hq.
  - rewrite children_of_alter_parent, children_of_alter_children.
    destruct (decide (q = p)) as [->|Hne].
    + rewrite decide_True by done. unfold children_of. by destruct (σ !! p).
    + rewrite decide_False by congruence. done.
  - by rewrite decide_False.
Qed.

Lemma detach_parent (σ : heap) n x :
  parent_of (detach n σ) x = if decide (n = x) then None else parent_of σ x.
Proof.
  unfold detach. destruct (parent_of σ n) as [q|] eqn:Hq.
  - rewrite parent_of_alter_parent, parent_of_alter_children.
    case_decide; [|done]. by destruct (_ !! x).
  - case_decide; [by subst|done].
Qed.

Lemma detach_kind (σ : heap) n x : kind_of (detach n σ) x = kind_of σ x.
Proof.
  unfold detach. destruct (parent_of σ n); [|done].
  by rewrite kind_of_alter_parent, kind_of_alter_children.
Qed.

(** The child list of [p] and the parent of [n] after the host has inserted
    [n] into [p]. *)
Lemma dom_insert_links (σ : heap) n p op reference :
  σ !! p = Some op → is_Some (σ !! n) → n ≠ p →
  (parent_of σ n ≠ Some p → n ∉ childNodes op) →
  children_of (dom_insert n p reference σ) p =
    place n reference (filter (λ c, c ≠ n) (childNodes op)) ∧
  parent_of (dom_insert n p reference σ) n = Some p.
Proof.
  intros Hp [on Hn] Hne Hnot. unfold dom_insert, attach. split.
  - rewrite children_of_alter_parent, children_of_alter_children.
    rewrite decide_True by done.
    assert (Hc : children_of (detach n σ) p =
                 filter (λ c, c ≠ n) (childNodes op)).
    { rewrite detach_children, (children_of_lookup _ _ _ Hp).
      case_decide; [done|]. symmetry. by apply filter_ne_id, Hnot. }
    unfold children_of in Hc. destruct (detach n σ !! p) as [op'|] eqn:Hp'.
    + simpl in *. by rewrite Hc.
    + exfalso. assert (Hk : kind_of (detach n σ) p = kind_of σ p)
        by apply detach_kind.
      unfold kind_of in Hk. by rewrite Hp', Hp in Hk.
  - rewrite parent_of_alter_parent, decide_True by done.
    rewrite lookup_alter_ne by done.
    assert (Hk : kind_of (detach n σ) n = kind_of σ n) by apply detach_kind.
    unfold kind_of in Hk. rewrite Hn in Hk.
    by destruct (detach n σ !! n).
Qed.

(** ** The host's insertion *)

Lemma inclusive_ancestor_self σ n : inclusive_ancestor σ n n = true.
Proof.
  unfold inclusive_ancestor. destruct (size σ); simpl; by rewrite decide_True.
Qed.

(** What the host has checked when it lets an insertion through. *)
Lemma ensure_valid_accepts σ p n child replacing :
  ensure_valid σ p n child replacing = None →
  ∃ op on, σ !! p = Some op ∧ σ !! n = Some on ∧
           is_node (okind op) = true ∧ is_node (okind on) = true ∧ n ≠ p ∧
           ∀ c, child = Some c → parent_of σ c = Some p.
Proof.
  unfold ensure_valid, kind_of. intros Hv.
  destruct (σ !! p) as [op|] eqn:Hp; [|done].
  destruct (σ !! n) as [on|] eqn:Hn; [|done]. simpl in Hv.
  exists op, on. do 2 (split; [done|]).
  destruct (okind op) eqn:Hkp; try done; simpl in Hv;
    (destruct (inclusive_ancestor σ n p) eqn:Hanc; [done|]);
    (assert (n ≠ p) by (intros ->; by rewrite inclusive_ancestor_self in Hanc));
    (assert (∀ c, child = Some c → parent_of σ c = Some p)
      by (intros c ->; simpl in Hv;
          destruct (bool_decide (parent_of σ c = Some p)) eqn:Hb;
          [by apply bool_decide_eq_true in Hb | done]));
    (destruct child as [c|]; simpl in Hv;
     [destruct (bool_decide (parent_of σ c = Some p)); [|done]|]);
    simpl in Hv; destruct (okind on); done.
Qed.

(** An element accepts any element or text node that is not one of its own
    ancestors, at any of its children or at the end. *)
Lemma ensure_valid_element σ p op t n on child replacing :
  σ !! p = Some op → okind op = KElement t →
  σ !! n = Some on → (is_element (okind on) = true ∨ okind on = KText) →
  inclusive_ancestor σ n p = false →
  (∀ c, child = Some c → parent_of σ c = Some p) →
  ensure_valid σ p n child replacing = None.
Proof.
  intros Hp Hkp Hn Hkn Hanc Hchild. unfold ensure_valid, kind_of.
  rewrite Hp, Hn. simpl. rewrite Hkp, Hanc. simpl.
  destruct child as [c|].
  - rewrite bool_decide_eq_true_2 by (by apply Hchild). simpl.
    destruct Hkn as [Hkn| ->]; [by destruct (okind on)|done].
  - destruct Hkn as [Hkn| ->]; [by destruct (okind on)|done].
Qed.

Lemma as_node_or_null_child σ p op child :
  tree_ok σ → σ !! p = Some op → (∀ c, child = Some c → c ∈ childNodes op) →
  as_node_or_null σ (opt_ref child) = Some child.
Proof.
  intros Hok Hp Hin. destruct child as [c|]; [|done]. simpl.
  destruct (tree_ok_child σ p op c Hok Hp (Hin c eq_refl)) as (oc & Hc & Hk & _).
  by rewrite (kind_of_ref _ _ oc), Hk.
Qed.

(** [p.insertBefore(n, child)] on the host, for a [child] that is [null] or
    one of [p]'s children. *)
Lemma host_insertBefore_run `{SelectorEngine} σ p op n child :
  tree_ok σ → σ !! p = Some op →
  (∀ c, child = Some c → c ∈ childNodes op) →
  ensure_valid σ p n child false = None →
  apply_native NInsertBefore (VRef p) [VRef n; opt_ref child] σ =
  Return (VRef n)
    (dom_insert n p
       (if decide (child = Some n) then nextSibling σ n else child) σ).
Proof.
  intros Hok Hp Hin Hv.
  destruct (ensure_valid_accepts _ _ _ _ _ Hv)
    as (op' & on & Hp' & Hn & Hkp & Hkn & Hne & Hpar).
  assert (op' = op) as -> by congruence.
  unfold apply_native. rewrite (as_node_ref _ _ op) by done.
  change (arg 0 [VRef n; opt_ref child]) with (VRef n).
  change (arg 1 [VRef n; opt_ref child]) with (opt_ref child).
  rewrite (as_node_ref _ _ on) by done.
  rewrite (as_node_or_null_child σ p op) by done.
  unfold pre_insert. by rewrite Hv.
Qed.

Lemma host_insertBefore `{SelectorEngine} σ p op n child :
  tree_ok σ → σ !! p = Some op →
  (∀ c, child = Some c → c ∈ childNodes op) →
  ensure_valid σ p n child false = None →
  ∃ σ',
    apply_native NInsertBefore (VRef p) [VRef n; opt_ref child] σ =
      Return (VRef n) σ' ∧
    children_of σ' p =
      place n (if decide (child = Some n) then next_in n (childNodes op)
               else child)
            (filter (λ c, c ≠ n) (childNodes op)) ∧
    parent_of σ' n = Some p.
Proof.
  intros Hok Hp Hin Hv.
  destruct (ensure_valid_accepts _ _ _ _ _ Hv)
    as (op' & on & Hp' & Hn & Hkp & Hkn & Hne & Hpar).
  assert (op' = op) as -> by congruence.
  set (reference := if decide (child = Some n) then nextSibling σ n else child).
  exists (dom_insert n p reference σ).
  destruct (dom_insert_links σ n p op reference Hp) as [Hch Hpn];
    [by eexists | done | by apply tree_ok_not_child |].
  split; [by apply (host_insertBefore_run σ p op)|]. split; [|done].
  rewrite Hch. f_equal. unfold reference.
  case_decide as Hc; [|done]. unfold nextSibling.
  rewrite (Hpar n Hc). simpl. by rewrite (children_of_lookup _ _ op).
Qed.

(** A node without a parent keeps everything but its parent link when it is
    inserted. *)
Lemma dom_insert_lookup_detached (σ : heap) n p reference :
  parent_of σ n = None → n ≠ p →
  dom_insert n p reference σ !! n = set_parent (Some p) <$> σ !! n.
Proof.
  intros Hdet Hne. unfold dom_insert, attach, detach. rewrite Hdet.
  rewrite lookup_alter_eq. by rewrite lookup_alter_ne.
Qed.

(** ** Insertions through the library *)

Lemma get_insertBefore `{SelectorEngine} σ p op :
  σ !! p = Some op → is_node (okind op) = true →
  props op !! "insertBefore" = None →
  get_prop (VRef p) "insertBefore" σ = Return (VNative NInsertBefore) σ.
Proof.
  intros Hp Hk Hprop. rewrite (get_prop_ref _ _ op) by done.
  rewrite obj_get_method by (done || by destruct (okind op)).
  by destruct (okind op).
Qed.

Lemma get_parentNode `{SelectorEngine} σ r o :
  σ !! r = Some o → is_node (okind o) = true →
  get_prop (VRef r) "parentNode" σ = Return (opt_ref (parentNode o)) σ.
Proof.
  intros Hr Hk. rewrite (get_prop_ref _ _ o) by done.
  by rewrite obj_get_parentNode.
Qed.

(** [before] with a node and one of [p]'s children as reference is the
    host's [insertBefore] on [p]. *)
Lemma before_child `{SelectorEngine} σ p op n x :
  tree_ok σ → σ !! p = Some op → x ∈ childNodes op →
  props op !! "insertBefore" = None →
  ensure_valid σ p n (Some x) false = None →
  ∃ σ',
    before (VRef n) (VRef x) σ = Return VUndef σ' ∧
    children_of σ' p =
      place n (if decide (Some x = Some n) then next_in n (childNodes op)
               else Some x)
            (filter (λ c, c ≠ n) (childNodes op)) ∧
    parent_of σ' n = Some p.
Proof.
  intros Hok Hp Hx Hprop Hv.
  destruct (tree_ok_child σ p op x Hok Hp Hx) as (ox & Hox & Hkx & Hpx).
  destruct (ensure_valid_accepts _ _ _ _ _ Hv)
    as (op' & on & Hp' & Hn & Hkp & Hkn & Hne & Hpar).
  assert (op' = op) as -> by congruence.
  destruct (host_insertBefore σ p op n (Some x) Hok Hp) as (σ' & Hrun & Hlinks);
    [by intros c [= <-] | done |].
  exists σ'. split; [|done].
  unfold before. cbn [truthy negb].
  rewrite run_bind, (get_parentNode _ _ ox), Hpx by done. cbn [opt_ref from_option truthy negb].
  rewrite run_bind, (get_parentNode _ _ ox), Hpx by done. cbn [opt_ref from_option].
  rewrite run_bind, (get_insertBefore _ _ op) by done. cbn [truthy negb].
  rewrite run_bind, (get_parentNode _ _ ox), Hpx by done. cbn [opt_ref from_option].
  unfold invoke.
  rewrite !run_bind, (get_insertBefore _ _ op) by done.
  rewrite !run_bind, normalize_not_string by done. rewrite run_ret.
  unfold call. simpl opt_ref in Hrun. by rewrite Hrun.
Qed.

Lemma get_nextSibling `{SelectorEngine} σ r o :
  σ !! r = Some o → is_node (okind o) = true →
  get_prop (VRef r) "nextSibling" σ = Return (opt_ref (nextSibling σ r)) σ.
Proof.
  intros Hr Hk. rewrite (get_prop_ref _ _ o) by done.
  by rewrite obj_get_nextSibling.
Qed.

Lemma get_firstChild `{SelectorEngine} σ r o :
  σ !! r = Some o → is_node (okind o) = true →
  get_prop (VRef r) "firstChild" σ = Return (opt_ref (head (childNodes o))) σ.
Proof.
  intros Hr Hk. rewrite (get_prop_ref _ _ o) by done.
  by rewrite obj_get_firstChild.
Qed.

Lemma get_appendChild `{SelectorEngine} σ p op :
  σ !! p = Some op → is_node (okind op) = true →
  props op !! "appendChild" = None →
  get_prop (VRef p) "appendChild" σ = Return (VNative NAppendChild) σ.
Proof.
  intros Hp Hk Hprop. rewrite (get_prop_ref _ _ op) by done.
  rewrite obj_get_method by (done || by destruct (okind op)).
  by destruct (okind op).
Qed.

(** [prepend] into a container that has children: the node becomes the
    first child and the other children keep their order. *)
Lemma prepend_nonempty `{SelectorEngine} σ c oc n x rest :
  tree_ok σ → σ !! c = Some oc → childNodes oc = x :: rest →
  props oc !! "appendChild" = None → props oc !! "insertBefore" = None →
  ensure_valid σ c n (Some x) false = None →
  ∃ σ',
    prepend (VRef n) (VRef c) σ = Return VUndef σ' ∧
    children_of σ' c = n :: filter (λ y, y ≠ n) (x :: rest) ∧
    parent_of σ' n = Some c.
Proof.
  intros Hok Hc Hch Happ Hins Hv.
  destruct (ensure_valid_accepts _ _ _ _ _ Hv)
    as (oc' & on & Hc' & Hn & Hkc & Hkn & Hne & Hpar).
  assert (oc' = oc) as -> by congruence.
  destruct (before_child σ c oc n x Hok Hc) as (σ' & Hrun & Hlist & Hpn);
    [rewrite Hch; apply list_elem_of_here | done | done |].
  exists σ'. split; [|split; [|done]].
  - unfold prepend. cbn [truthy negb].
    rewrite run_bind, (get_appendChild _ _ oc) by done. cbn [truthy negb].
    rewrite run_bind, normalize_not_string by done.
    rewrite run_bind, (get_firstChild _ _ oc), Hch by done.
    cbn [head opt_ref from_option]. by rewrite run_bind, Hrun.
  - rewrite Hlist, Hch.
    assert (Hnd : NoDup ([] ++ x :: rest)).
    { rewrite <- Hch. by eapply tree_ok_nodup. }
    assert (Hgen := place_before_child n x [] rest Hnd).
    cbn [app] in Hgen, Hnd. rewrite Hgen.
    destruct (decide (n = x)) as [->|Hnx].
    + apply NoDup_cons in Hnd as [Hx _]. by rewrite filter_ne_head.
    + by rewrite filter_cons_True.
Qed.

(** The case of the specification's example: children [[a; b]] and a node
    that is not among them give [[n; a; b]]. *)
Lemma prepend_two_children `{SelectorEngine} σ c oc n a b :
  tree_ok σ → σ !! c = Some oc → childNodes oc = [a; b] →
  props oc !! "appendChild" = None → props oc !! "insertBefore" = None →
  ensure_valid σ c n (Some a) false = None → n ≠ a → n ≠ b →
  ∃ σ',
    prepend (VRef n) (VRef c) σ = Return VUndef σ' ∧
    children_of σ' c = [n; a; b].
Proof.
  intros Hok Hc Hch Happ Hins Hv Ha Hb.
  destruct (prepend_nonempty σ c oc n a [b]) as (σ' & Hrun & Hlist & _);
    try done.
  exists σ'. split; [done|]. rewrite Hlist.
  by rewrite !filter_cons_True by done.
Qed.

(** C1. What the code does with a container that has no children: its
    first child is [null], [before] returns at its reference guard, and the
    container stays empty (the specification expects [[n]]). *)
Theorem prepend_empty_container_unchanged `{SelectorEngine} σ c oc elm :
  σ !! c = Some oc → is_node (okind oc) = true → childNodes oc = [] →
  is_string elm = false →
  prepend elm (VRef c) σ = Return VUndef σ.
Proof.
  intros Hc Hk Hch Hs. unfold prepend.
  destruct (truthy elm) eqn:He; [|done]. cbn [truthy negb].
  rewrite run_bind, (get_prop_ref _ _ oc) by done.
  destruct (truthy (obj_get σ c oc "appendChild")); [|done]. cbn [negb].
  rewrite run_bind, normalize_not_string by done.
  rewrite run_bind, (get_firstChild _ _ oc), Hch by done.
  cbn [head opt_ref from_option]. rewrite run_bind.
  unfold before. by rewrite He.
Qed.

(** [after] with a node: the node ends up right behind the reference, the
    other children keep their order, and when the reference is the last
    child the node is the last child afterwards. *)
Lemma after_node_run `{SelectorEngine} σ p op l1 r l2 n :
  tree_ok σ → σ !! p = Some op → childNodes op = l1 ++ r :: l2 →
  props op !! "insertBefore" = None →
  ensure_valid σ p n (head l2) false = None →
  ∃ σ',
    after (VRef n) (VRef r) σ = Return VUndef σ' ∧
    parent_of σ' n = Some p ∧
    children_of σ' p =
      (if decide (n = r) then l1 ++ r :: l2
       else filter (λ c, c ≠ n) l1 ++ r :: n :: filter (λ c, c ≠ n) l2) ∧
    (l2 = [] → last (children_of σ' p) = Some n).
Proof.
  intros Hok Hp Hch Hprop Hv.
  assert (Hnd : NoDup (l1 ++ r :: l2)).
  { rewrite <- Hch. by eapply tree_ok_nodup. }
  assert (Hr1 : r ∉ l1).
  { apply NoDup_app in Hnd as (_ & Hdisj & _). intros Hin.
    apply (Hdisj r Hin). apply list_elem_of_here. }
  destruct (tree_ok_child σ p op r Hok Hp) as (or & Hor & Hkr & Hpr).
  { rewrite Hch. apply elem_of_app. right. apply list_elem_of_here. }
  destruct (ensure_valid_accepts _ _ _ _ _ Hv)
    as (op' & on & Hp' & Hn & Hkp & Hkn & Hne & Hpar).
  assert (op' = op) as -> by congruence.
  assert (Hnext : nextSibling σ r = head l2).
  { unfold nextSibling. rewrite (parent_of_lookup _ _ or), Hpr by done.
    simpl. rewrite (children_of_lookup _ _ op), Hch by done.
    by apply next_in_middle. }
  destruct (host_insertBefore σ p op n (head l2) Hok Hp)
    as (σ' & Hrun & Hlist & Hpn); [|done|].
  { intros c Hc. rewrite Hch. apply elem_of_app. right.
    apply list_elem_of_further. destruct l2; [done|].
    injection Hc as ->. apply list_elem_of_here. }
  rewrite Hch, place_after_reference in Hlist by done.
  exists σ'. split; [|split; [done|split; [done|]]].
  - unfold after. cbn [truthy negb].
    rewrite run_bind, (get_parentNode _ _ or), Hpr by done.
    cbn [opt_ref from_option truthy negb].
    rewrite run_bind, (get_parentNode _ _ or), Hpr by done.
    cbn [opt_ref from_option].
    rewrite run_bind, (get_insertBefore _ _ op) by done. cbn [truthy negb].
    rewrite run_bind, (get_parentNode _ _ or), Hpr by done.
    cbn [opt_ref from_option]. unfold invoke.
    rewrite !run_bind, (get_insertBefore _ _ op) by done.
    rewrite !run_bind, normalize_not_string by done.
    rewrite !run_bind, (get_nextSibling _ _ or), Hnext by done.
    rewrite run_ret. unfold call. by rewrite Hrun.
  - intros ->. rewrite Hlist. apply last_snoc_filter.
Qed.

(** ** Text passed as a string *)

Lemma alloc_lookup_old σ s x : is_Some (σ !! x) → with_text σ s !! x = σ !! x.
Proof.
  intros [ox Hx]. unfold with_text. rewrite lookup_insert_ne; [done|].
  intros <-. by rewrite fresh_loc_unused in Hx.
Qed.

Lemma alloc_parent_of σ s x : parent_of (with_text σ s) x = parent_of σ x.
Proof.
  unfold parent_of, with_text. destruct (decide (fresh (dom σ) = x)) as [<-|Hne].
  - rewrite lookup_insert_eq. by rewrite fresh_loc_unused.
  - by rewrite lookup_insert_ne.
Qed.

Lemma alloc_children_of σ s x : children_of (with_text σ s) x = children_of σ x.
Proof.
  unfold children_of, with_text.
  destruct (decide (fresh (dom σ) = x)) as [<-|Hne].
  - rewrite lookup_insert_eq. by rewrite fresh_loc_unused.
  - by rewrite lookup_insert_ne.
Qed.

Lemma alloc_kind_of σ s x :
  is_Some (σ !! x) → kind_of (with_text σ s) x = kind_of σ x.
Proof. intros Hx. unfold kind_of. by rewrite alloc_lookup_old. Qed.

Lemma alloc_nextSibling σ s x : nextSibling (with_text σ s) x = nextSibling σ x.
Proof.
  unfold nextSibling. rewrite alloc_parent_of.
  destruct (parent_of σ x); simpl; [|done]. by rewrite alloc_children_of.
Qed.

Lemma alloc_tree_ok σ s : tree_ok σ → tree_ok (with_text σ s).
Proof.
  intros Hok. unfold tree_ok. unfold with_text at 2. apply map_Forall_insert_2.
  - split; [apply NoDup_nil_2|]. split; [apply Forall_nil_2|done].
  - intros x ox Hx. destruct (Hok x ox Hx) as (Hnd & Hall & Hpar).
    split; [done|]. split.
    + rewrite Forall_forall in *. intros c Hc. destruct (Hall c Hc) as [Hp Hk].
      rewrite alloc_parent_of. split; [done|].
      rewrite alloc_kind_of; [done|]. unfold kind_of in Hk.
      destruct (σ !! c); [by eexists|done].
    + destruct (parentNode ox); [|done]. by rewrite alloc_children_of.
Qed.

(** The new node is nobody's ancestor. *)
Lemma alloc_not_ancestor σ s fuel x :
  tree_ok σ → is_Some (σ !! x) →
  ancestor_upto fuel (with_text σ s) (fresh (dom σ)) x = false.
Proof.
  intros Hok. revert x. induction fuel as [|fuel IH]; intros x Hx; simpl.
  - rewrite decide_False; [done|]. intros <-. destruct Hx as [ox Hx].
    by rewrite fresh_loc_unused in Hx.
  - rewrite decide_False.
    + rewrite alloc_parent_of. destruct (parent_of σ x) as [q|] eqn:Hq; [|done].
      apply IH. apply (tree_ok_parent σ x q Hok) in Hq.
      unfold children_of in Hq. destruct (σ !! q); [by eexists|].
      by apply elem_of_nil in Hq.
    + intros <-. destruct Hx as [ox Hx]. by rewrite fresh_loc_unused in Hx.
Qed.

(** An element accepts the new text node at any of its children or at the
    end. *)
Lemma alloc_ensure_valid σ s p op tag child :
  tree_ok σ → σ !! p = Some op → okind op = KElement tag →
  (∀ c, child = Some c → c ∈ childNodes op) →
  ensure_valid (with_text σ s) p (fresh (dom σ)) child false = None.
Proof.
  intros Hok Hp Hk Hchild.
  apply (ensure_valid_element _ p op tag _ (text_node s)).
  - by rewrite alloc_lookup_old.
  - done.
  - apply lookup_insert_eq.
  - by right.
  - apply alloc_not_ancestor; [done|by eexists].
  - intros c Hc. rewrite alloc_parent_of.
    destruct (tree_ok_child σ p op c Hok Hp (Hchild c Hc)) as (oc & Hoc & _ & Hpc).
    by rewrite (parent_of_lookup _ _ oc).
Qed.

(** [after] with a non-empty string: a new text node with that content
    ends up right behind the reference. *)
Lemma after_text_run `{SelectorEngine} σ p op tag l1 r l2 s :
  tree_ok σ → document_provides σ "createTextNode" →
  σ !! p = Some op → okind op = KElement tag →
  childNodes op = l1 ++ r :: l2 → props op !! "insertBefore" = None →
  s ≠ "" →
  ∃ σ' t,
    σ !! t = None ∧
    after (VStr s) (VRef r) σ = Return VUndef σ' ∧
    σ' !! t = Some (Obj KText ∅ (Some p) [] s) ∧
    children_of σ' p = l1 ++ r :: t :: l2.
Proof.
  intros Hok Hdoc Hp Hk Hch Hprop Hs.
  set (t := fresh (dom σ)). set (σ1 := with_text σ s).
  assert (Hnd : NoDup (l1 ++ r :: l2)).
  { rewrite <- Hch. by eapply tree_ok_nodup. }
  assert (Hr1 : r ∉ l1).
  { apply NoDup_app in Hnd as (_ & Hdisj & _). intros Hin.
    apply (Hdisj r Hin). apply list_elem_of_here. }
  destruct (tree_ok_child σ p op r Hok Hp) as (or & Hor & Hkr & Hpr).
  { rewrite Hch. apply elem_of_app. right. apply list_elem_of_here. }
  assert (Hkp : is_node (okind op) = true) by by rewrite Hk.
  assert (Hin2 : ∀ c, head l2 = Some c → c ∈ childNodes op).
  { intros c Hc. rewrite Hch. apply elem_of_app. right.
    apply list_elem_of_further. destruct l2; [done|].
    injection Hc as ->. apply list_elem_of_here. }
  assert (Hnext : nextSibling σ r = head l2).
  { unfold nextSibling. rewrite (parent_of_lookup _ _ or), Hpr by done.
    simpl. rewrite (children_of_lookup _ _ op), Hch by done.
    by apply next_in_middle. }
  assert (Hp1 : σ1 !! p = Some op).
  { unfold σ1. rewrite alloc_lookup_old; [done|by eexists]. }
  assert (Hor1 : σ1 !! r = Some or).
  { unfold σ1. rewrite alloc_lookup_old; [done|by eexists]. }
  assert (Hfresh : ∀ x, x ∈ l1 ++ r :: l2 → x ≠ t).
  { intros x Hx ->. rewrite <- Hch in Hx.
    destruct (tree_ok_child σ p op t Hok Hp Hx) as (ot & Hot & _).
    unfold t in Hot. by rewrite fresh_loc_unused in Hot. }
  destruct (host_insertBefore σ1 p op t (head l2)) as (σ' & Hrun & Hlist & Hpt).
  { by apply alloc_tree_ok. } { done. } { done. }
  { by apply (alloc_ensure_valid σ s p op tag). }
  rewrite Hch, place_after_reference in Hlist by done.
  rewrite decide_False in Hlist.
  2:{ intros Heq. apply (Hfresh r); [|done].
      apply elem_of_app. right. apply list_elem_of_here. }
  rewrite !filter_ne_id in Hlist.
  2:{ intros Hin. apply (Hfresh t); [|done]. apply elem_of_app. right.
      by apply list_elem_of_further. }
  2:{ intros Hin. apply (Hfresh t); [|done]. apply elem_of_app. by left. }
  exists σ', t. split; [apply fresh_loc_unused|]. split; [|split; [|done]].
  - unfold after. apply String.eqb_neq in Hs. cbn [truthy]. rewrite Hs.
    cbn [negb].
    rewrite run_bind, (get_parentNode _ _ or), Hpr by done.
    cbn [opt_ref from_option truthy negb].
    rewrite run_bind, (get_parentNode _ _ or), Hpr by done.
    cbn [opt_ref from_option].
    rewrite run_bind, (get_insertBefore _ _ op) by done. cbn [truthy negb].
    rewrite run_bind, (get_parentNode _ _ or), Hpr by done.
    cbn [opt_ref from_option]. unfold invoke.
    rewrite !run_bind, (get_insertBefore _ _ op) by done.
    unfold normalize. cbn [is_string].
    rewrite !run_bind, text_fresh_node by done. cbn [to_string].
    change (<[fresh (dom σ) := Obj KText ∅ None [] s]> σ) with σ1. fold t.
    rewrite !run_bind, (get_nextSibling _ _ or) by done.
    unfold σ1. rewrite alloc_nextSibling, Hnext. fold σ1.
    rewrite run_ret. unfold call. by rewrite Hrun.
  - rewrite (host_insertBefore_run σ1 p op) in Hrun;
      [|by apply alloc_tree_ok|done|done
       |by apply (alloc_ensure_valid σ s p op tag)].
    injection Hrun as <-. rewrite dom_insert_lookup_detached.
    + unfold σ1, with_text. by rewrite lookup_insert_eq.
    + unfold σ1. rewrite alloc_parent_of. unfold parent_of, t.
      by rewrite fresh_loc_unused.
    + intros Heq. rewrite <- Heq in Hp. unfold t in Hp.
      by rewrite fresh_loc_unused in Hp.
Qed.

(** C5. [after] puts the normalized node right behind the reference.  A
    node given as such is moved there, and the other children keep their
    order; a non-empty string becomes a new text node with that content,
    and it is that node which is inserted.  In both cases the inserted node
    is the last child afterwards when the reference was the last child. *)
Theorem after_inserts_behind_reference `{SelectorEngine} σ p op l1 r l2 :
  tree_ok σ → σ !! p = Some op → childNodes op = l1 ++ r :: l2 →
  props op !! "insertBefore" = None →
  (∀ n, ensure_valid σ p n (head l2) false = None →
        ∃ σ',
          after (VRef n) (VRef r) σ = Return VUndef σ' ∧
          parent_of σ' n = Some p ∧
          children_of σ' p =
            (if decide (n = r) then l1 ++ r :: l2
             else filter (λ c, c ≠ n) l1 ++ r :: n :: filter (λ c, c ≠ n) l2) ∧
          (l2 = [] → last (children_of σ' p) = Some n)) ∧
  (∀ s tag, s ≠ "" → okind op = KElement tag →
            document_provides σ "createTextNode" →
            ∃ σ' t,
              σ !! t = None ∧
              after (VStr s) (VRef r) σ = Return VUndef σ' ∧
              σ' !! t = Some (Obj KText ∅ (Some p) [] s) ∧
              children_of σ' p = l1 ++ r :: t :: l2 ∧
              (l2 = [] → last (children_of σ' p) = Some t)).
Proof.
  intros Hok Hp Hch Hprop. split.
  - intros n Hv. by apply (after_node_run σ p op).
  - intros s tag Hs Hk Hdoc.
    destruct (after_text_run σ p op tag l1 r l2 s)
      as (σ' & t & Hfresh & Hrun & Ht & Hlist); try done.
    exists σ', t. repeat (split; [done|]).
    intros ->. rewrite Hlist.
    replace (l1 ++ [r; t]) with ((l1 ++ [r]) ++ [t])
      by (by rewrite <- app_assoc).
    apply last_snoc.
Qed.

(** X17. [after] with a non-empty string: a new text node with that
    content ends up right behind the reference. *)
Lemma after_text_behind_reference `{SelectorEngine} σ p op tag l1 r l2 s :
  tree_ok σ → document_provides σ "createTextNode" →
  σ !! p = Some op → okind op = KElement tag →
  childNodes op = l1 ++ r :: l2 → props op !! "insertBefore" = None →
  s ≠ "" →
  ∃ σ' t,
    σ !! t = None ∧
    after (VStr s) (VRef r) σ = Return VUndef σ' ∧
    σ' !! t = Some (Obj KText ∅ (Some p) [] s) ∧
    children_of σ' p = l1 ++ r :: t :: l2.
Proof. apply after_text_run. Qed.

(** ** Replacement *)

Lemma lookup_of_kind (σ1 σ : heap) x :
  kind_of σ1 x = kind_of σ x → is_Some (σ !! x) → is_Some (σ1 !! x).
Proof.
  unfold kind_of. intros Hk [o Ho]. rewrite Ho in Hk.
  destruct (σ1 !! x); [by eexists|done].
Qed.

Lemma dom_insert_parent_other (σ : heap) n p reference x :
  x ≠ n → parent_of (dom_insert n p reference σ) x = parent_of σ x.
Proof.
  intros Hx. unfold dom_insert, attach.
  rewrite parent_of_alter_parent, decide_False by done.
  rewrite parent_of_alter_children, detach_parent.
  by rewrite decide_False.
Qed.

Lemma place_replaced (n r : loc) (l1 l2 : list loc) :
  NoDup (l1 ++ r :: l2) → n ∉ l1 ++ r :: l2 →
  place n (head l2) (filter (λ c, c ≠ n) (l1 ++ l2)) = l1 ++ n :: l2.
Proof.
  intros Hnd Hn. apply NoDup_app in Hnd as (_ & Hdisj & Hnd2).
  rewrite filter_ne_id.
  - destruct l2 as [|x l2]; simpl.
    + by rewrite !app_nil_r.
    + apply insert_before_middle. intros Hx. apply (Hdisj x Hx).
      apply list_elem_of_further, list_elem_of_here.
  - rewrite not_elem_of_app in Hn. destruct Hn as [Hn1 Hn2].
    apply not_elem_of_cons in Hn2 as [_ Hn2]. by apply not_elem_of_app.
Qed.

Lemma get_replaceChild `{SelectorEngine} σ p op :
  σ !! p = Some op → is_node (okind op) = true →
  props op !! "replaceChild" = None →
  get_prop (VRef p) "replaceChild" σ = Return (VNative NReplaceChild) σ.
Proof.
  intros Hp Hk Hprop. rewrite (get_prop_ref _ _ op) by done.
  rewrite obj_get_method by (done || by destruct (okind op)).
  by destruct (okind op).
Qed.

(** [p.replaceChild(n, r)] on the host, for a child [r] of [p] and a node
    [n] that has no parent. *)
Lemma host_replaceChild `{SelectorEngine} σ p op n r l1 l2 :
  tree_ok σ → σ !! p = Some op → childNodes op = l1 ++ r :: l2 →
  parent_of σ n = None →
  ensure_valid σ p n (Some r) true = None →
  ∃ σ',
    apply_native NReplaceChild (VRef p) [VRef n; VRef r] σ =
      Return (VRef r) σ' ∧
    children_of σ' p = l1 ++ n :: l2 ∧
    parent_of σ' r = None ∧ parent_of σ' n = Some p.
Proof.
  intros Hok Hp Hch Hdet Hv.
  assert (Hnd : NoDup (l1 ++ r :: l2)).
  { rewrite <- Hch. by eapply tree_ok_nodup. }
  assert (Hr1 : r ∉ l1).
  { apply NoDup_app in Hnd as (_ & Hdisj & _). intros Hin.
    apply (Hdisj r Hin). apply list_elem_of_here. }
  assert (Hr2 : r ∉ l2).
  { apply NoDup_app in Hnd as (_ & _ & Hnd2).
    by apply NoDup_cons in Hnd2 as [? _]. }
  destruct (tree_ok_child σ p op r Hok Hp) as (or & Hor & Hkr & Hpr).
  { rewrite Hch. apply elem_of_app. right. apply list_elem_of_here. }
  destruct (ensure_valid_accepts _ _ _ _ _ Hv)
    as (op' & on & Hp' & Hn & Hkp & Hkn & Hne & _).
  assert (op' = op) as -> by congruence.
  assert (Hnin : n ∉ l1 ++ r :: l2).
  { rewrite <- Hch. apply (tree_ok_not_child σ p op n Hok Hp). by rewrite Hdet. }
  assert (Hnr : r ≠ n).
  { intros ->. apply Hnin, elem_of_app. right. apply list_elem_of_here. }
  assert (Hrp : parent_of σ r = Some p).
  { by rewrite (parent_of_lookup _ _ or). }
  assert (Hnext : nextSibling σ r = head l2).
  { unfold nextSibling. rewrite Hrp. simpl.
    rewrite (children_of_lookup _ _ op), Hch by done. by apply next_in_middle. }
  assert (Href : (if decide (nextSibling σ r = Some n) then nextSibling σ n
                  else nextSibling σ r) = head l2).
  { rewrite Hnext. case_decide as Hh; [|done]. exfalso. apply Hnin.
    apply elem_of_app. right. apply list_elem_of_further.
    destruct l2; [done|]. injection Hh as ->. apply list_elem_of_here. }
  set (σ1 := detach r σ).
  assert (Hch1 : children_of σ1 p = l1 ++ l2).
  { unfold σ1. rewrite detach_children, decide_True by done.
    rewrite (children_of_lookup _ _ op), Hch by done.
    rewrite filter_app, filter_ne_head, filter_ne_id by done. done. }
  destruct (lookup_of_kind σ1 σ p) as [op1 Hp1];
    [apply detach_kind | by eexists |].
  rewrite (children_of_lookup _ _ op1) in Hch1 by done.
  destruct (dom_insert_links σ1 n p op1 (head l2) Hp1) as [Hlist Hpn].
  { apply (lookup_of_kind σ1 σ n); [apply detach_kind | by eexists]. }
  { done. }
  { intros _. rewrite Hch1. rewrite not_elem_of_app in Hnin.
    destruct Hnin as [Hn1 Hn2]. apply not_elem_of_cons in Hn2 as [_ Hn2].
    by apply not_elem_of_app. }
  exists (dom_insert n p (head l2) σ1). split; [|split; [|split; [|done]]].
  - unfold apply_native. rewrite (as_node_ref _ _ op) by done.
    change (arg 0 [VRef n; VRef r]) with (VRef n).
    change (arg 1 [VRef n; VRef r]) with (VRef r).
    rewrite (as_node_ref _ _ on), (as_node_ref _ _ or) by done.
    unfold replace_child. rewrite Hv. cbv zeta. by rewrite Href.
  - rewrite Hlist, Hch1. by apply (place_replaced n r).
  - rewrite dom_insert_parent_other by done. unfold σ1.
    by rewrite detach_parent, decide_True.
Qed.

Lemma replace_own_parent `{SelectorEngine} σ elm ref p1 :
  truthy elm = true → truthy ref = true →
  get_prop elm "parentNode" σ = Return p1 σ → truthy p1 = true →
  replace elm ref σ = replaceChild_in elm ref p1 σ.
Proof.
  intros He Hr Hp1 Ht. unfold replace. rewrite He, Hr. cbn [negb].
  rewrite !run_bind, Hp1, Ht. rewrite run_bind, run_ret. cbv beta iota.
  by rewrite Ht.
Qed.

Lemma replace_reference_parent `{SelectorEngine} σ elm ref p1 p2 :
  truthy elm = true → truthy ref = true →
  get_prop elm "parentNode" σ = Return p1 σ → truthy p1 = false →
  get_prop ref "parentNode" σ = Return p2 σ → truthy p2 = true →
  replace elm ref σ = replaceChild_in elm ref p2 σ.
Proof.
  intros He Hr Hp1 Ht1 Hp2 Ht2. unfold replace. rewrite He, Hr. cbn [negb].
  rewrite !run_bind, Hp1, Ht1. rewrite !run_bind, Hp2, Ht2.
  rewrite run_ret. cbv beta iota. by rewrite Ht2.
Qed.

Lemma replace_no_parent `{SelectorEngine} σ elm ref p1 p2 :
  truthy elm = true → truthy ref = true →
  get_prop elm "parentNode" σ = Return p1 σ → truthy p1 = false →
  get_prop ref "parentNode" σ = Return p2 σ → truthy p2 = false →
  replace elm ref σ = Return VUndef σ.
Proof.
  intros He Hr Hp1 Ht1 Hp2 Ht2. unfold replace. rewrite He, Hr. cbn [negb].
  rewrite !run_bind, Hp1, Ht1. rewrite !run_bind, Hp2, Ht2.
  by rewrite run_ret.
Qed.

(** C3. [replace] works in the node's own parent when it has one, else in
    the reference's parent, and does nothing when neither has a parent.
    When the node has no parent and the reference is a child of [p], the
    node takes the reference's place among [p]'s children and the reference
    is left without a parent. *)
Theorem replace_resolves_parent `{SelectorEngine} σ elm ref :
  truthy elm = true → truthy ref = true →
  (∀ p1, get_prop elm "parentNode" σ = Return p1 σ → truthy p1 = true →
         replace elm ref σ = replaceChild_in elm ref p1 σ) ∧
  (∀ p1 p2, get_prop elm "parentNode" σ = Return p1 σ → truthy p1 = false →
            get_prop ref "parentNode" σ = Return p2 σ → truthy p2 = true →
            replace elm ref σ = replaceChild_in elm ref p2 σ) ∧
  (∀ p1 p2, get_prop elm "parentNode" σ = Return p1 σ → truthy p1 = false →
            get_prop ref "parentNode" σ = Return p2 σ → truthy p2 = false →
            replace elm ref σ = Return VUndef σ) ∧
  (∀ n r p op l1 l2,
     elm = VRef n → ref = VRef r → tree_ok σ → parent_of σ n = None →
     σ !! p = Some op → childNodes op = l1 ++ r :: l2 →
     props op !! "replaceChild" = None →
     ensure_valid σ p n (Some r) true = None →
     ∃ σ', replace elm ref σ = Return VUndef σ' ∧
           children_of σ' p = l1 ++ n :: l2 ∧
           parent_of σ' r = None ∧ parent_of σ' n = Some p).
Proof.
  intros He Hr.
  split; [intros; by apply replace_own_parent|].
  split; [intros; by eapply replace_reference_parent|].
  split; [intros; by eapply replace_no_parent|].
  intros n r p op l1 l2 -> -> Hok Hdet Hp Hch Hprop Hv.
  destruct (host_replaceChild σ p op n r l1 l2) as (σ' & Hrun & Hlinks);
    try done.
  destruct (tree_ok_child σ p op r Hok Hp) as (or & Hor & Hkr & Hpr).
  { rewrite Hch. apply elem_of_app. right. apply list_elem_of_here. }
  destruct (ensure_valid_accepts _ _ _ _ _ Hv)
    as (op' & on & Hp' & Hn & Hkp & Hkn & Hne & _).
  assert (op' = op) as -> by congruence.
  exists σ'. split; [|done].
  rewrite (replace_reference_parent σ _ _ VNull (VRef p)); try done.
  - unfold replaceChild_in, invoke.
    rewrite !run_bind, (get_replaceChild _ _ op) by done.
    rewrite !run_bind, normalize_not_string by done.
    rewrite !run_bind, normalize_not_string by done.
    rewrite run_ret. unfold call. by rewrite Hrun.
  - rewrite (get_parentNode _ _ on) by done.
    rewrite (parent_of_lookup _ _ on) in Hdet by done. by rewrite Hdet.
  - rewrite (get_parentNode _ _ or) by done. by rewrite Hpr.
Qed.

(** ** Markup: what is assigned and what is read back *)

Lemma mtree_nested_ind (P : mtree → Prop) :
  (∀ s, P (MText s)) →
  (∀ t kids, Forall P kids → P (MElem t kids)) →
  ∀ k, P k.
Proof.
  intros Ht He. fix IH 1. intros [s|t kids]; [apply Ht|]. apply He.
  induction kids as [|k kids IHk]; constructor; [apply IH|apply IHk].
Qed.

Lemma alloc_tree_elem p tag kids (σ : heap) :
  alloc_tree p (MElem tag kids) σ =
  let r := fresh (dom σ) in
  let '(ks, σ1) :=
    alloc_forest r kids (<[r := Obj (KElement tag) ∅ (Some p) [] ""]> σ) in
  (r, alter (set_children (λ _, ks)) r σ1).
Proof.
  cbn [alloc_tree]. cbv zeta.
  set (go := fix go (l : list mtree) (τ : heap) : list loc * heap :=
         match l with
         | [] => ([], τ)
         | k :: l' =>
           let '(c, τ1) := alloc_tree (fresh (dom σ)) k τ in
           let '(cs, τ2) := go l' τ1 in (c :: cs, τ2)
         end).
  assert (Hgo : ∀ l τ, go l τ = alloc_forest (fresh (dom σ)) l τ).
  { induction l as [|k l IH]; intros τ; [done|]. simpl.
    destruct (alloc_tree _ k τ) as [c τ1]. by rewrite IH. }
  by rewrite Hgo.
Qed.

Lemma size_alter (σ : heap) f x : size (alter f x σ) = size σ.
Proof. by rewrite <- !size_dom, dom_alter_L. Qed.

Lemma allocates_nil σ : allocates σ σ [] [].
Proof. split; [done|]. split; [unfold forest_size; simpl; lia|done]. Qed.

Lemma allocates_cons σ σ1 σ2 c cs k l :
  allocates σ σ1 [c] [k] → allocates σ1 σ2 cs l →
  allocates σ σ2 (c :: cs) (k :: l).
Proof.
  intros (Hold1 & Hsize1 & Hread1) (Hold2 & Hsize2 & Hread2).
  assert (Hnew : ∀ x, σ1 !! x = None → σ !! x = None).
  { intros x Hx. destruct (σ !! x) as [ox|] eqn:Hox; [|done].
    rewrite <- Hx. symmetry. rewrite <- Hox. apply Hold1. by rewrite Hox. }
  split; [|split].
  - intros x Hx. rewrite Hold2 by (by rewrite Hold1). by apply Hold1.
  - rewrite Hsize2, Hsize1. unfold forest_size. simpl. lia.
  - intros τ fuel Hτ Hfuel. unfold forest_size in Hfuel. simpl in Hfuel.
    assert (Hc : flat_map (markup_of fuel τ) [c] = [k]).
    { apply Hread1; [|unfold forest_size; simpl; lia].
      intros x Hx Hx1. rewrite <- (Hold2 x Hx1). apply Hτ; [done|].
      by rewrite Hold2. }
    cbn [flat_map] in Hc. rewrite app_nil_r in Hc.
    cbn [flat_map]. rewrite Hc, (Hread2 τ fuel); [done| |].
    + intros x Hx1 Hx2. apply Hτ; [by apply Hnew|done].
    + unfold forest_size. lia.
Qed.

Lemma alloc_forest_allocates p l :
  Forall (λ k, ∀ p σ c σ', alloc_tree p k σ = (c, σ') →
                           allocates σ σ' [c] [k]) l →
  ∀ σ cs σ', alloc_forest p l σ = (cs, σ') → allocates σ σ' cs l.
Proof.
  induction 1 as [|k l Hk _ IH]; intros σ cs σ' Hrun; simpl in Hrun.
  - injection Hrun as <- <-. apply allocates_nil.
  - destruct (alloc_tree p k σ) as [c σ1] eqn:Hc.
    destruct (alloc_forest p l σ1) as [cs' σ2] eqn:Hcs.
    injection Hrun as <- <-.
    eapply allocates_cons; [by eapply Hk|by eapply IH].
Qed.

(** The nodes made of a tree give that tree when read off the heap. *)
Lemma alloc_tree_allocates k :
  ∀ p σ c σ', alloc_tree p k σ = (c, σ') → allocates σ σ' [c] [k].
Proof.
  induction k as [s|tag kids IH] using mtree_nested_ind;
    intros p σ c σ' Hrun.
  - simpl in Hrun. injection Hrun as <- <-.
    assert (Hfresh := fresh_loc_unused σ). split; [|split].
    + intros x [ox Hx]. rewrite lookup_insert_ne; [done|].
      intros <-. by rewrite Hfresh in Hx.
    + rewrite map_size_insert_None by done. unfold forest_size. simpl. lia.
    + intros τ fuel Hτ Hfuel. unfold forest_size in Hfuel. simpl in Hfuel.
      destruct fuel as [|fuel]; [lia|]. simpl.
      rewrite (Hτ _ Hfresh) by (by rewrite lookup_insert_eq).
      by rewrite lookup_insert_eq.
  - rewrite alloc_tree_elem in Hrun. cbv zeta in Hrun.
    set (r := fresh (dom σ)) in *.
    set (σa := <[r := Obj (KElement tag) ∅ (Some p) [] ""]> σ) in *.
    destruct (alloc_forest r kids σa) as [ks σb] eqn:Hkids.
    injection Hrun as <- <-.
    assert (Hfresh : σ !! r = None) by apply fresh_loc_unused.
    destruct (alloc_forest_allocates r kids IH σa ks σb Hkids)
      as (Hold & Hsize & Hread).
    assert (Hra : σa !! r = Some (Obj (KElement tag) ∅ (Some p) [] ""))
      by apply lookup_insert_eq.
    assert (Hrb : σb !! r = Some (Obj (KElement tag) ∅ (Some p) [] "")).
    { rewrite Hold; [done|by eexists]. }
    split; [|split].
    + intros x [ox Hx]. assert (r ≠ x) by (intros <-; congruence).
      rewrite lookup_alter_ne by done.
      rewrite Hold by (unfold σa; rewrite lookup_insert_ne; by eauto).
      unfold σa. by rewrite lookup_insert_ne.
    + rewrite size_alter, Hsize. unfold σa.
      rewrite map_size_insert_None by done. unfold forest_size. simpl. lia.
    + intros τ fuel Hτ Hfuel. unfold forest_size in Hfuel. simpl in Hfuel.
      destruct fuel as [|fuel]; [lia|]. simpl.
      rewrite (Hτ _ Hfresh) by (rewrite lookup_alter_eq, Hrb; by eexists).
      rewrite lookup_alter_eq, Hrb. simpl.
      rewrite (Hread τ fuel); [done| |unfold forest_size; lia].
      intros x Hx Hxb. assert (r ≠ x) by (intros <-; congruence).
      rewrite <- (lookup_alter_ne (set_children (λ _, ks)) σb r x) by done.
      apply Hτ.
      * unfold σa in Hx. by rewrite lookup_insert_ne in Hx.
      * by rewrite lookup_alter_ne.
Qed.

Lemma alloc_forest_reads_back p l σ cs σ' :
  alloc_forest p l σ = (cs, σ') → allocates σ σ' cs l.
Proof.
  apply alloc_forest_allocates, Forall_forall.
  intros k _. apply alloc_tree_allocates.
Qed.

Lemma clear_parents_lookup (l : list loc) (σ : heap) x :
  kind_of (foldr (λ c, alter (set_parent None) c) σ l) x = kind_of σ x ∧
  size (foldr (λ c, alter (set_parent None) c) σ l) = size σ.
Proof.
  induction l as [|c l [IHk IHs]]; simpl; [done|].
  by rewrite kind_of_alter_parent, size_alter.
Qed.

(** Assigning markup leaves the kinds of the old objects alone. *)
Lemma inner_markup_set_kind `{SelectorEngine} σ r m x :
  is_Some (σ !! x) → kind_of (inner_markup_set r m σ) x = kind_of σ x.
Proof.
  intros Hx. unfold inner_markup_set.
  destruct (kind_of σ r) as [[| t | | |]|] eqn:Hk; try done.
  destruct (alloc_forest _ _ _) as [ks σ2] eqn:Hrun.
  rewrite kind_of_alter_children.
  destruct (alloc_forest_reads_back _ _ _ _ _ Hrun) as (Hold & _).
  destruct (clear_parents_lookup (children_of σ r) σ x) as [Hkx _].
  rewrite <- Hkx. unfold kind_of at 1. rewrite Hold; [done|].
  unfold kind_of in Hkx. destruct Hx as [ox Hx]. rewrite Hx in Hkx.
  by destruct (foldr _ σ (children_of σ r) !! x).
Qed.

(** What is read back from [innerHTML] after an assignment is not the
    markup assigned but the serialization of what the host parsed from it. *)
Lemma inner_markup_read_back `{SelectorEngine} σ r t m :
  kind_of σ r = Some (KElement t) →
  inner_markup_get (inner_markup_set r m σ) r =
  serialize_markup t (parse_markup t m).
Proof.
  intros Hk. unfold inner_markup_get.
  rewrite inner_markup_set_kind, Hk
    by (unfold kind_of in Hk; by destruct (σ !! r)).
  unfold inner_markup_set. rewrite Hk.
  set (σ1 := foldr (λ c, alter (set_parent None) c) σ (children_of σ r)).
  destruct (alloc_forest r (parse_markup t m) σ1) as [ks σ2] eqn:Hrun.
  destruct (alloc_forest_reads_back _ _ _ _ _ Hrun) as (Hold & Hsize & Hread).
  assert (Hr1 : is_Some (σ1 !! r)).
  { destruct (clear_parents_lookup (children_of σ r) σ r) as [Hk1 _].
    fold σ1 in Hk1. rewrite Hk in Hk1. unfold kind_of in Hk1.
    by destruct (σ1 !! r). }
  assert (Hr2 : is_Some (σ2 !! r)) by (by rewrite Hold).
  f_equal. unfold children_of at 1. rewrite lookup_alter_eq.
  destruct Hr2 as [o2 Hr2]. rewrite Hr2. simpl.
  apply Hread.
  - intros x Hx Hx2. apply lookup_alter_ne. intros <-.
    rewrite Hx in Hr1. by destruct Hr1.
  - rewrite size_alter, Hsize. lia.
Qed.

Lemma attr_innerHTML `{SelectorEngine} σ r t :
  kind_of σ r = Some (KElement t) →
  attr (VRef r) (VStr "innerHTML") σ = Return (VStr (inner_markup_get σ r)) σ.
Proof.
  intros Hk. unfold kind_of in Hk.
  destruct (σ !! r) as [o|] eqn:Hr; [|done]. injection Hk as Hk.
  unfold attr. cbn [truthy negb to_string].
  by rewrite (get_innerHTML _ _ o t).
Qed.

(** C6, as the code has it.  [el] returns [null] for a falsy tag name
    whatever the second argument is.  For a name the host accepts and no
    markup it returns a new element without children, whose serialized
    inner content is empty.  With non-empty markup it returns the new
    element after the markup has been assigned to its [innerHTML]; its
    serialized inner content is then the host's serialization of the nodes
    the host parsed from the markup, which need not be the markup given.
    A name the host rejects makes [createElement] throw, and [el] with it. *)
Theorem el_creates_element `{SelectorEngine} σ nodeName html :
  (truthy nodeName = false → el nodeName html σ = Return VNull σ) ∧
  (truthy nodeName = true → document_provides σ "createElement" →
   valid_name (to_string nodeName) = true →
   ∃ r, σ !! r = None ∧
     let tag := to_string nodeName in
     let σ1 := <[r := Obj (KElement tag) ∅ None [] ""]> σ in
     (truthy html = false →
        el nodeName html σ = Return (VRef r) σ1 ∧
        attr (VRef r) (VStr "innerHTML") σ1 = Return (VStr "") σ1) ∧
     (∀ m, html = VStr m → m ≠ "" →
        let σ2 := inner_markup_set r m σ1 in
        el nodeName html σ = Return (VRef r) σ2 ∧
        attr (VRef r) (VStr "innerHTML") σ2 =
          Return (VStr (serialize_markup tag (parse_markup tag m))) σ2)) ∧
  (truthy nodeName = true → document_provides σ "createElement" →
   valid_name (to_string nodeName) = false →
   el nodeName html σ = Throw InvalidCharacterError σ).
Proof.
  split; [|split].
  - intros Hn. unfold el. by rewrite Hn.
  - intros Hn Hdoc Hname. exists (fresh (dom σ)).
    split; [apply fresh_loc_unused|]. cbv zeta.
    set (r := fresh (dom σ)).
    set (o := Obj (KElement (to_string nodeName)) ∅ None [] "").
    assert (Hcreate := createElement_run σ (to_string nodeName) Hdoc Hname).
    fold r o in Hcreate.
    assert (Hr : <[r := o]> σ !! r = Some o) by apply lookup_insert_eq.
    assert (Hk : kind_of (<[r := o]> σ) r = Some (KElement (to_string nodeName))).
    { unfold kind_of. by rewrite Hr. }
    split.
    + intros Hh. split.
      * unfold el. rewrite Hn. simpl.
        assert (truthy (if is_undefined html then VStr "" else html) = false)
          as -> by (by destruct html).
        by rewrite run_bind, Hcreate.
      * rewrite (attr_innerHTML _ _ _ Hk).
        rewrite inner_markup_get_empty; [done|].
        unfold children_of. by rewrite Hr.
    + intros m -> Hm. split.
      * apply String.eqb_neq in Hm.
        unfold el. rewrite Hn. simpl. rewrite Hm. simpl.
        rewrite run_bind, Hcreate. rewrite run_bind.
        by rewrite (set_innerHTML_run _ r o (to_string nodeName)).
      * rewrite (attr_innerHTML _ r (to_string nodeName)).
        -- by rewrite (inner_markup_read_back _ _ _ _ Hk).
        -- rewrite inner_markup_set_kind; [done|by eexists].
  - intros Hn Hdoc Hname. unfold el. rewrite Hn. cbn [negb].
    by rewrite run_bind, createElement_rejected.
Qed.

(** ** Guards: missing capabilities *)

(** X20. The insertions probe the method they are about to call and
    return with the heap unchanged when it is missing; [html] does the same
    for [innerHTML]. *)
Lemma mutation_missing_capability `{SelectorEngine} (elm ref : val) σ :
  truthy elm = true → truthy ref = true →
  (∀ p, get_prop ref "parentNode" σ = Return p σ → truthy p = false →
        before elm ref σ = Return VUndef σ ∧ after elm ref σ = Return VUndef σ) ∧
  (∀ p f, get_prop ref "parentNode" σ = Return p σ → truthy p = true →
          get_prop p "insertBefore" σ = Return f σ → truthy f = false →
          before elm ref σ = Return VUndef σ ∧ after elm ref σ = Return VUndef σ) ∧
  (∀ f, get_prop ref "appendChild" σ = Return f σ → truthy f = false →
        append elm ref σ = Return VUndef σ ∧
        prepend elm ref σ = Return VUndef σ) ∧
  (get_prop elm "innerHTML" σ = Return VUndef σ →
   html elm ref σ = Return VUndef σ).
Proof.
  intros He Hr. split; [|split; [|split]].
  - intros p Hp Ht. split.
    + unfold before. rewrite He, Hr. cbn [negb]. by rewrite run_bind, Hp, Ht.
    + unfold after. rewrite He, Hr. cbn [negb]. by rewrite run_bind, Hp, Ht.
  - intros p f Hp Ht Hf Hff. split.
    + unfold before. rewrite He, Hr. cbn [negb].
      rewrite run_bind, Hp, Ht. cbn [negb]. rewrite run_bind, Hp.
      by rewrite run_bind, Hf, Hff.
    + unfold after. rewrite He, Hr. cbn [negb].
      rewrite run_bind, Hp, Ht. cbn [negb]. rewrite run_bind, Hp.
      by rewrite run_bind, Hf, Hff.
  - intros f Hf Hff. split.
    + unfold append. rewrite He, Hr. cbn [negb]. by rewrite run_bind, Hf, Hff.
    + unfold prepend. rewrite He, Hr. cbn [negb]. by rewrite run_bind, Hf, Hff.
  - intros Hi. unfold html. rewrite He. cbn [negb]. by rewrite run_bind, Hi.
Qed.

(** C2. [replace] has no such probe.  When the parent it has resolved has
    no [replaceChild], the call is made all the same and throws, where the
    specification expects a silent return. *)
Theorem replace_missing_method_throws `{SelectorEngine} σ elm ref p1 parent :
  truthy elm = true → truthy ref = true →
  is_string elm = false → is_string ref = false →
  get_prop elm "parentNode" σ = Return p1 σ → truthy p1 = false →
  get_prop ref "parentNode" σ = Return parent σ → truthy parent = true →
  get_prop parent "replaceChild" σ = Return VUndef σ →
  replace elm ref σ = Throw TypeError σ.
Proof.
  intros He Hr Hse Hsr Hp1 Ht1 Hp2 Ht2 Hm.
  rewrite (replace_reference_parent σ _ _ p1 parent) by done.
  unfold replaceChild_in, invoke. rewrite !run_bind, Hm.
  rewrite !run_bind, normalize_not_string by done.
  by rewrite !run_bind, normalize_not_string by done.
Qed.

(** X19. [remove] calls [removeChild] on the parent without a probe as
    well: when the parent has no such method the call throws. *)
Lemma remove_missing_method_throws `{SelectorEngine} σ elm parent :
  truthy elm = true →
  get_prop elm "parentNode" σ = Return parent σ → truthy parent = true →
  get_prop parent "removeChild" σ = Return VUndef σ →
  remove elm σ = Throw TypeError σ.
Proof.
  intros He Hp Ht Hm. unfold remove. rewrite He. cbn [negb].
  rewrite run_bind, Hp, Ht. cbn [negb]. rewrite run_bind, Hp.
  unfold invoke. by rewrite !run_bind, Hm.
Qed.

(** * The statements on the sample page *)

Lemma sample_tree_ok : tree_ok sample_heap.
Proof. apply (bool_decide_unpack _). vm_compute. exact I. Qed.

Lemma sample_document m : document_provides sample_heap m.
Proof.
  eexists. split; [reflexivity|]. split; [reflexivity|apply lookup_empty].
Qed.

Lemma normalize_text_or_identity_witness :
  ∃ r, sample_heap !! r = None ∧
       normalize (H := tag_engine) (VStr "fat cat") sample_heap =
       Return (VRef r) (<[r := Obj KText ∅ None [] "fat cat"]> sample_heap).
Proof.
  destruct (normalize_text_or_identity (H := tag_engine) sample_heap
              (VStr "fat cat")) as [Hstr _].
  apply (Hstr "fat cat" eq_refl). apply sample_document.
Defined.

Lemma el_creates_element_witness :
  ∃ r, sample_heap !! r = None ∧
       let σ2 := inner_markup_set (H := tag_engine) r "<b>x"
                   (<[r := Obj (KElement "div") ∅ None [] ""]> sample_heap) in
       el (H := tag_engine) (VStr "div") (VStr "<b>x") sample_heap =
         Return (VRef r) σ2 ∧
       attr (H := tag_engine) (VRef r) (VStr "innerHTML") σ2 =
         Return (VStr "<b>x</b>") σ2.
Proof.
  destruct (el_creates_element (H := tag_engine) sample_heap
              (VStr "div") (VStr "<b>x")) as (_ & Hel & _).
  destruct (Hel eq_refl (sample_document _) eq_refl)
    as (r & Hfresh & _ & Hmarkup).
  exists r. split; [exact Hfresh|]. by apply Hmarkup.
Defined.

(** C6, as the specification words it, fails: markup is parsed, and what
    the element then serializes to is the markup of the parsed nodes.  On
    the sample host [el('div', '<b>x')] is an element whose inner content
    reads [<b>x</b>], not [<b>x]. *)
Lemma el_markup_not_verbatim :
  ∃ r σ',
    el (H := tag_engine) (VStr "div") (VStr "<b>x") sample_heap =
      Return (VRef r) σ' ∧
    attr (H := tag_engine) (VRef r) (VStr "innerHTML") σ' =
      Return (VStr "<b>x</b>") σ' ∧
    attr (H := tag_engine) (VRef r) (VStr "innerHTML") σ' ≠
      Return (VStr "<b>x") σ'.
Proof.
  eexists _, _. split; [vm_compute; reflexivity|].
  split; [vm_compute; reflexivity|]. vm_compute. discriminate.
Qed.

Lemma matches_null_or_verdict_witness :
  matches (H := tag_engine) (VRef 3%positive) (VStr "li") sample_heap =
    Return (VBool true) sample_heap ∧
  matches (H := tag_engine) VNull (VStr "li") sample_heap =
    Return VNull sample_heap.
Proof.
  destruct (matches_null_or_verdict (H := tag_engine) sample_heap
              (VRef 3%positive) (VStr "li")) as (_ & _ & Helem).
  destruct (matches_null_or_verdict (H := tag_engine) sample_heap
              VNull (VStr "li")) as (Habsent & _ & _).
  split.
  - by apply (Helem 3%positive (Obj (KElement "li") ∅ (Some 2%positive) [] "")
                "li").
  - by apply Habsent.
Defined.

Lemma select_null_or_empty_witness :
  ∃ c, sample_heap !! c = None ∧
       select (H := tag_engine) (VStr "table") sample_heap =
       Return (VRef c) (<[c := node_list []]> sample_heap).
Proof.
  destruct (select_null_or_empty (H := tag_engine) sample_heap (VStr "table"))
    as [_ Hempty].
  apply Hempty.
  - apply sample_document.
  - reflexivity.
  - intros r t Hr _. vm_compute in Hr.
    repeat (apply elem_of_cons in Hr as [-> | Hr]; [reflexivity|]).
    by apply elem_of_nil in Hr.
Defined.

Lemma remove_detached_noop_witness :
  remove (H := tag_engine) (VRef 5%positive) sample_heap =
  Return VUndef sample_heap.
Proof.
  apply remove_detached_noop. right. right.
  exists 5%positive, (Obj (KElement "li") ∅ None [] "").
  repeat split.
Defined.

Lemma setData_is_prefixed_property_witness :
  let σ' := <[3%positive :=
               Obj (KElement "li") {[ "data-yummy" := VStr "very" ]}
                   (Some 2%positive) [] ""]> sample_heap in
  setData (H := tag_engine) (VRef 3%positive) (VStr "yummy") (VStr "very")
    sample_heap = Return VUndef σ' ∧
  data (H := tag_engine) (VRef 3%positive) (VStr "yummy") σ' =
    Return (VStr "very") σ' ∧
  attr (H := tag_engine) (VRef 3%positive) (VStr "data-yummy") σ' =
    Return (VStr "very") σ'.
Proof.
  destruct (setData_is_prefixed_property (H := tag_engine) sample_heap
              3%positive (Obj (KElement "li") ∅ (Some 2%positive) [] "")
              (VStr "yummy") (VStr "very") eq_refl) as (Hset & Hdata & Hattr & _).
  repeat split; assumption.
Defined.

Lemma prepend_empty_container_unchanged_witness :
  prepend (H := tag_engine) (VRef 5%positive) (VRef 6%positive) sample_heap =
  Return VUndef sample_heap.
Proof.
  by apply (prepend_empty_container_unchanged sample_heap 6%positive
              (Obj (KElement "div") ∅ None [] "")).
Defined.

Lemma replace_missing_method_throws_witness :
  replace (H := tag_engine) (VRef 5%positive) (VRef 7%positive) sample_heap =
  Throw TypeError sample_heap.
Proof.
  by apply (replace_missing_method_throws sample_heap (VRef 5%positive)
              (VRef 7%positive) VNull (VRef 8%positive)).
Defined.

Lemma replace_resolves_parent_witness :
  ∃ σ', replace (H := tag_engine) (VRef 5%positive) (VRef 3%positive)
          sample_heap = Return VUndef σ' ∧
        children_of σ' 2%positive = [5%positive; 4%positive] ∧
        parent_of σ' 3%positive = None ∧
        parent_of σ' 5%positive = Some 2%positive.
Proof.
  destruct (replace_resolves_parent (H := tag_engine) sample_heap
              (VRef 5%positive) (VRef 3%positive) eq_refl eq_refl)
    as (_ & _ & _ & Hbase).
  apply (Hbase 5%positive 3%positive 2%positive
           (Obj (KElement "ul") ∅ (Some 1%positive) [3%positive; 4%positive] "")
           [] [4%positive]);
    try reflexivity.
  apply sample_tree_ok.
Defined.

Lemma after_inserts_behind_reference_witness :
  (∃ σ', after (H := tag_engine) (VRef 5%positive) (VRef 4%positive)
           sample_heap = Return VUndef σ' ∧
         parent_of σ' 5%positive = Some 2%positive ∧
         children_of σ' 2%positive = [3%positive; 4%positive; 5%positive] ∧
         last (children_of σ' 2%positive) = Some 5%positive) ∧
  (∃ σ' t, sample_heap !! t = None ∧
           after (H := tag_engine) (VStr "milk") (VRef 4%positive)
             sample_heap = Return VUndef σ' ∧
           σ' !! t = Some (Obj KText ∅ (Some 2%positive) [] "milk") ∧
           children_of σ' 2%positive = [3%positive; 4%positive; t] ∧
           last (children_of σ' 2%positive) = Some t).
Proof.
  destruct (after_inserts_behind_reference (H := tag_engine) sample_heap
              2%positive sample_ul [3%positive] 4%positive []
              sample_tree_ok eq_refl eq_refl eq_refl) as [Hnode Htext].
  split.
  - destruct (Hnode 5%positive eq_refl) as (σ' & Hrun & Hpar & Hlist & Hlast).
    exists σ'. split; [exact Hrun|]. split; [exact Hpar|].
    split; [exact Hlist|]. by apply Hlast.
  - destruct (Htext "milk" "ul") as (σ' & t & Hfresh & Hrun & Ht & Hlist & Hlast);
      [done | reflexivity | apply sample_document |].
    exists σ', t. repeat (split; [assumption|]). by apply Hlast.
Defined.

(** The half of the specification's [prepend] example that the code
    fulfils: a container with children. *)
Example prepend_sample_list :
  ∃ σ', prepend (H := tag_engine) (VRef 5%positive) (VRef 2%positive)
          sample_heap = Return VUndef σ' ∧
        children_of σ' 2%positive = [5%positive; 3%positive; 4%positive].
Proof.
  apply (prepend_two_children sample_heap 2%positive
           (Obj (KElement "ul") ∅ (Some 1%positive) [3%positive; 4%positive] ""));
    try done.
  apply sample_tree_ok.
Qed.

(** [after] with a string on the sample list. *)
Lemma after_text_behind_reference_witness :
  ∃ σ' t, sample_heap !! t = None ∧
          after (H := tag_engine) (VStr "milk") (VRef 3%positive) sample_heap =
            Return VUndef σ' ∧
          σ' !! t = Some (Obj KText ∅ (Some 2%positive) [] "milk") ∧
          children_of σ' 2%positive = [3%positive; t; 4%positive].
Proof.
  apply (after_text_behind_reference sample_heap 2%positive
           (Obj (KElement "ul") ∅ (Some 1%positive) [3%positive; 4%positive] "")
           "ul" [] 3%positive [4%positive] "milk");
    try done.
  - apply sample_tree_ok.
  - apply sample_document.
Defined.

(** [remove] on the second stub throws as [replace] does: its parent has no
    [removeChild]. *)
Lemma remove_missing_method_throws_witness :
  remove (H := tag_engine) (VRef 7%positive) sample_heap =
  Throw TypeError sample_heap.
Proof.
  by apply (remove_missing_method_throws sample_heap (VRef 7%positive)
              (VRef 8%positive)).
Defined.

(** * Beyond the statements: the rest of the two modules *)

(** ** Well-formedness in terms of the links *)

Lemma tree_ok_links σ :
  tree_ok σ ↔
  ∀ r, NoDup (children_of σ r) ∧
       (∀ c, c ∈ children_of σ r →
             parent_of σ c = Some r ∧ is_node <$> kind_of σ c = Some true) ∧
       (∀ q, parent_of σ r = Some q → r ∈ children_of σ q).
Proof.
  split.
  - intros Hok r. destruct (σ !! r) as [o|] eqn:Hr.
    + destruct (Hok r o Hr) as (Hnd & Hall & Hpar).
      rewrite (children_of_lookup _ _ o), (parent_of_lookup _ _ o) by done.
      split; [done|]. split.
      * intros c Hc. rewrite Forall_forall in Hall. by apply Hall.
      * intros q Hq. rewrite Hq in Hpar. by apply bool_decide_unpack in Hpar.
    + unfold children_of, parent_of. rewrite Hr. simpl.
      split; [apply NoDup_nil_2|]. split; [|done].
      intros c Hc. by apply elem_of_nil in Hc.
  - intros Hlinks r o Hr. destruct (Hlinks r) as (Hnd & Hall & Hpar).
    rewrite (children_of_lookup _ _ o) in Hnd, Hall by done.
    rewrite (parent_of_lookup _ _ o) in Hpar by done.
    split; [done|]. split.
    + rewrite Forall_forall. intros c Hc. by apply Hall.
    + destruct (parentNode o) as [q|]; [|done].
      apply bool_decide_pack. by apply Hpar.
Qed.

Lemma place_perm (n : loc) (reference : option loc) (l : list loc) :
  place n reference l ≡ₚ n :: l.
Proof.
  destruct reference as [c|]; simpl.
  - induction l as [|x l IH]; simpl; [done|].
    case_decide; [done|]. rewrite IH. apply Permutation_swap.
  - by rewrite Permutation_app_comm.
Qed.

Lemma detach_tree_ok σ n : tree_ok σ → tree_ok (detach n σ).
Proof.
  rewrite !tree_ok_links. intros Hok r.
  destruct (Hok r) as (Hnd & Hall & Hpar).
  assert (Hkeep : ∀ c, c ∈ children_of (detach n σ) r →
                       c ∈ children_of σ r ∧ c ≠ n).
  { intros c. rewrite detach_children. case_decide as Hn.
    - rewrite list_elem_of_filter. tauto.
    - intros Hc. split; [done|]. intros ->.
      destruct (Hall n Hc) as [Hp _]. by rewrite Hp in Hn. }
  split; [|split].
  - rewrite detach_children. case_decide; [by apply NoDup_filter|done].
  - intros c Hc. destruct (Hkeep c Hc) as [Hin Hne].
    rewrite detach_parent, detach_kind. rewrite decide_False by done.
    by apply Hall.
  - intros q. rewrite detach_parent. case_decide as Hn; [done|]. intros Hq.
    destruct (Hok r) as (_ & _ & Hup). specialize (Hup q Hq).
    rewrite detach_children. case_decide; [|done].
    apply list_elem_of_filter. split; [congruence|done].
Qed.

Lemma attach_children (σ : heap) n p reference r :
  is_Some (σ !! p) →
  children_of (attach n p reference σ) r =
  if decide (p = r) then place n reference (children_of σ p)
  else children_of σ r.
Proof.
  intros [op Hp]. unfold attach.
  rewrite children_of_alter_parent, children_of_alter_children.
  case_decide; [subst|done]. by rewrite (children_of_lookup _ _ op), Hp.
Qed.

Lemma attach_parent (σ : heap) n p reference x :
  is_Some (σ !! n) →
  parent_of (attach n p reference σ) x =
  if decide (n = x) then Some p else parent_of σ x.
Proof.
  intros Hn. unfold attach.
  rewrite parent_of_alter_parent, parent_of_alter_children.
  case_decide; [subst|done].
  destruct (lookup_of_kind (alter (set_children (place x reference)) p σ) σ x)
    as [o Ho]; [apply kind_of_alter_children|done|]. by rewrite Ho.
Qed.

Lemma attach_kind (σ : heap) n p reference x :
  kind_of (attach n p reference σ) x = kind_of σ x.
Proof.
  unfold attach. by rewrite kind_of_alter_parent, kind_of_alter_children.
Qed.

Lemma attach_tree_ok σ n p reference :
  tree_ok σ → parent_of σ n = None → n ≠ p →
  is_node <$> kind_of σ n = Some true → is_Some (σ !! p) →
  tree_ok (attach n p reference σ).
Proof.
  rewrite !tree_ok_links. intros Hok Hdet Hne Hkn Hp r.
  assert (Hn : is_Some (σ !! n)).
  { unfold kind_of in Hkn. destruct (σ !! n); [by eexists|done]. }
  assert (Hfree : ∀ q, n ∉ children_of σ q).
  { intros q Hin. destruct (Hok q) as (_ & Hall & _).
    destruct (Hall n Hin) as [Hpar _]. by rewrite Hdet in Hpar. }
  destruct (Hok r) as (Hnd & Hall & Hpar).
  split; [|split].
  - rewrite attach_children by done. case_decide; [subst|done].
    rewrite place_perm. apply NoDup_cons. split; [apply Hfree|done].
  - intros c. rewrite attach_children by done.
    rewrite attach_parent, attach_kind by done.
    case_decide as Hpr.
    + subst r. rewrite place_perm. intros Hc.
      apply elem_of_cons in Hc as [->|Hc].
      * by rewrite decide_True.
      * rewrite decide_False; [by apply Hall|].
        intros ->. by apply (Hfree p).
    + intros Hc. rewrite decide_False; [by apply Hall|].
      intros ->. by apply (Hfree r).
  - intros q. rewrite attach_parent by done. case_decide as Hnr.
    + subst r. intros [= <-]. rewrite attach_children, decide_True by done.
      rewrite place_perm. apply list_elem_of_here.
    + intros Hq. specialize (Hpar q Hq). rewrite attach_children by done.
      case_decide; [subst|done]. rewrite place_perm.
      by apply list_elem_of_further.
Qed.

(** The host's insertion keeps the tree well formed. *)
Lemma dom_insert_tree_ok σ n p reference :
  tree_ok σ → n ≠ p → is_node <$> kind_of σ n = Some true →
  is_Some (σ !! p) → tree_ok (dom_insert n p reference σ).
Proof.
  intros Hok Hne Hkn Hp. unfold dom_insert. apply attach_tree_ok.
  - by apply detach_tree_ok.
  - by rewrite detach_parent, decide_True.
  - done.
  - by rewrite detach_kind.
  - apply (lookup_of_kind _ σ); [apply detach_kind|done].
Qed.

(** After an insertion the node is in the child list of its new parent and
    in no other. *)
Lemma dom_insert_children σ n p reference q :
  tree_ok σ → is_Some (σ !! p) →
  children_of (dom_insert n p reference σ) q =
  if decide (p = q)
  then place n reference (filter (λ c, c ≠ n) (children_of σ p))
  else filter (λ c, c ≠ n) (children_of σ q).
Proof.
  intros Hok Hp. unfold dom_insert.
  assert (Hdet : ∀ r, children_of (detach n σ) r =
                      filter (λ c, c ≠ n) (children_of σ r)).
  { intros r. rewrite detach_children. case_decide as Hn; [done|].
    symmetry. apply filter_ne_id. intros Hin.
    destruct (proj1 (tree_ok_links σ) Hok r) as (_ & Hall & _).
    destruct (Hall n Hin) as [Hpar _]. by rewrite Hpar in Hn. }
  rewrite attach_children
    by (apply (lookup_of_kind _ σ); [apply detach_kind|done]).
  by rewrite !Hdet.
Qed.

Lemma dom_insert_parent σ n p reference x :
  is_Some (σ !! n) →
  parent_of (dom_insert n p reference σ) x =
  if decide (n = x) then Some p else parent_of σ x.
Proof.
  intros Hn. unfold dom_insert.
  rewrite attach_parent
    by (apply (lookup_of_kind _ σ); [apply detach_kind|done]).
  case_decide; [done|]. rewrite detach_parent. by rewrite decide_False.
Qed.

(** ** The library calls as heap transformers *)

Lemma get_removeChild `{SelectorEngine} σ p op :
  σ !! p = Some op → is_node (okind op) = true →
  props op !! "removeChild" = None →
  get_prop (VRef p) "removeChild" σ = Return (VNative NRemoveChild) σ.
Proof.
  intros Hp Hk Hprop. rewrite (get_prop_ref _ _ op) by done.
  rewrite obj_get_method by (done || by destruct (okind op)).
  by destruct (okind op).
Qed.

Lemma append_run `{SelectorEngine} σ c oc n :
  σ !! c = Some oc → props oc !! "appendChild" = None →
  ensure_valid σ c n None false = None →
  append (VRef n) (VRef c) σ = Return VUndef (dom_insert n c None σ).
Proof.
  intros Hc Hprop Hv.
  destruct (ensure_valid_accepts _ _ _ _ _ Hv)
    as (oc' & on & Hc' & Hn & Hkc & Hkn & Hne & _).
  assert (oc' = oc) as -> by congruence.
  unfold append. cbn [truthy negb].
  rewrite run_bind, (get_appendChild _ _ oc) by done. cbn [truthy negb].
  unfold invoke. rewrite !run_bind, (get_appendChild _ _ oc) by done.
  rewrite !run_bind, normalize_not_string by done. rewrite run_ret.
  unfold call, apply_native. rewrite (as_node_ref _ _ oc) by done.
  change (arg 0 [VRef n]) with (VRef n).
  rewrite (as_node_ref _ _ on) by done.
  unfold pre_insert. by rewrite Hv.
Qed.

Lemma before_run `{SelectorEngine} σ p op n x :
  tree_ok σ → σ !! p = Some op → x ∈ childNodes op →
  props op !! "insertBefore" = None →
  ensure_valid σ p n (Some x) false = None →
  before (VRef n) (VRef x) σ =
  Return VUndef
    (dom_insert n p
       (if decide (Some x = Some n) then nextSibling σ n else Some x) σ).
Proof.
  intros Hok Hp Hx Hprop Hv.
  destruct (tree_ok_child σ p op x Hok Hp Hx) as (ox & Hox & Hkx & Hpx).
  destruct (ensure_valid_accepts _ _ _ _ _ Hv)
    as (op' & on & Hp' & Hn & Hkp & Hkn & Hne & Hpar).
  assert (op' = op) as -> by congruence.
  assert (Hrun := host_insertBefore_run σ p op n (Some x) Hok Hp).
  cbn [opt_ref from_option] in Hrun.
  unfold before. cbn [truthy negb].
  rewrite run_bind, (get_parentNode _ _ ox), Hpx by done.
  cbn [opt_ref from_option truthy negb].
  rewrite run_bind, (get_parentNode _ _ ox), Hpx by done.
  cbn [opt_ref from_option].
  rewrite run_bind, (get_insertBefore _ _ op) by done. cbn [truthy negb].
  rewrite run_bind, (get_parentNode _ _ ox), Hpx by done.
  cbn [opt_ref from_option]. unfold invoke.
  rewrite !run_bind, (get_insertBefore _ _ op) by done.
  rewrite !run_bind, normalize_not_string by done. rewrite run_ret.
  unfold call. rewrite Hrun; [done| |done]. by intros c [= <-].
Qed.

Lemma after_run `{SelectorEngine} σ p op n r :
  tree_ok σ → σ !! p = Some op → r ∈ childNodes op →
  props op !! "insertBefore" = None →
  ensure_valid σ p n (nextSibling σ r) false = None →
  after (VRef n) (VRef r) σ =
  Return VUndef
    (dom_insert n p
       (if decide (nextSibling σ r = Some n) then nextSibling σ n
        else nextSibling σ r) σ).
Proof.
  intros Hok Hp Hr Hprop Hv.
  destruct (tree_ok_child σ p op r Hok Hp Hr) as (or & Hor & Hkr & Hpr).
  destruct (ensure_valid_accepts _ _ _ _ _ Hv)
    as (op' & on & Hp' & Hn & Hkp & Hkn & Hne & Hpar).
  assert (op' = op) as -> by congruence.
  assert (Hrun := host_insertBefore_run σ p op n (nextSibling σ r) Hok Hp).
  unfold after. cbn [truthy negb].
  rewrite run_bind, (get_parentNode _ _ or), Hpr by done.
  cbn [opt_ref from_option truthy negb].
  rewrite run_bind, (get_parentNode _ _ or), Hpr by done.
  cbn [opt_ref from_option].
  rewrite run_bind, (get_insertBefore _ _ op) by done. cbn [truthy negb].
  rewrite run_bind, (get_parentNode _ _ or), Hpr by done.
  cbn [opt_ref from_option]. unfold invoke.
  rewrite !run_bind, (get_insertBefore _ _ op) by done.
  rewrite !run_bind, normalize_not_string by done.
  rewrite !run_bind, (get_nextSibling _ _ or) by done. rewrite run_ret.
  unfold call. rewrite Hrun; [done| |done].
  intros c Hc. rewrite <- (children_of_lookup σ p op) by done.
  apply (tree_ok_parent σ c p Hok). by apply Hpar.
Qed.

Lemma remove_run `{SelectorEngine} σ n on p op :
  σ !! n = Some on → is_node (okind on) = true → parentNode on = Some p →
  σ !! p = Some op → is_node (okind op) = true →
  props op !! "removeChild" = None →
  remove (VRef n) σ = Return VUndef (detach n σ).
Proof.
  intros Hn Hkn Hpn Hp Hkp Hprop. unfold remove. cbn [truthy negb].
  rewrite run_bind, (get_parentNode _ _ on), Hpn by done.
  cbn [opt_ref from_option truthy negb].
  rewrite run_bind, (get_parentNode _ _ on), Hpn by done.
  cbn [opt_ref from_option]. unfold invoke.
  rewrite !run_bind, (get_removeChild _ _ op) by done.
  rewrite run_bind, run_ret. unfold call, apply_native. rewrite (as_node_ref _ _ op) by done.
  change (arg 0 [VRef n]) with (VRef n).
  rewrite (as_node_ref _ _ on) by done.
  unfold pre_remove. rewrite (parent_of_lookup _ _ on), Hpn by done.
  by rewrite bool_decide_eq_true_2.
Qed.

(** ** Insertion and removal *)

Lemma node_kind σ n on :
  σ !! n = Some on → is_node (okind on) = true →
  is_node <$> kind_of σ n = Some true.
Proof. intros Hn Hk. rewrite (kind_of_ref _ _ on) by done. simpl. by rewrite Hk. Qed.

(** X1. [append] moves the node to the end of the container's children:
    the other children keep their order, the node is in no other child
    list, and the tree stays well formed. *)
Theorem append_makes_last_child `{SelectorEngine} σ c oc n :
  tree_ok σ → σ !! c = Some oc → props oc !! "appendChild" = None →
  ensure_valid σ c n None false = None →
  ∃ σ', append (VRef n) (VRef c) σ = Return VUndef σ' ∧
        children_of σ' c = filter (λ x, x ≠ n) (childNodes oc) ++ [n] ∧
        parent_of σ' n = Some c ∧
        (∀ q, q ≠ c → children_of σ' q = filter (λ x, x ≠ n) (children_of σ q)) ∧
        tree_ok σ'.
Proof.
  intros Hok Hc Hprop Hv.
  destruct (ensure_valid_accepts _ _ _ _ _ Hv)
    as (oc' & on & Hc' & Hn & Hkc & Hkn & Hne & _).
  exists (dom_insert n c None σ). split; [by apply (append_run σ c oc)|].
  split; [|split; [|split]].
  - rewrite dom_insert_children, decide_True by (done || by eexists).
    by rewrite (children_of_lookup _ _ oc).
  - rewrite dom_insert_parent by (by eexists). by rewrite decide_True.
  - intros q Hq. rewrite dom_insert_children by (done || by eexists).
    by rewrite decide_False.
  - apply dom_insert_tree_ok; [done|done| |by eexists].
    by apply (node_kind σ n on).
Qed.

(** X2. [before] puts the node immediately in front of the reference among
    the reference's siblings, which keep their order; inserting a node
    before itself changes nothing.  The tree stays well formed. *)
Theorem before_inserts_in_front `{SelectorEngine} σ p op l1 x l2 n :
  tree_ok σ → σ !! p = Some op → childNodes op = l1 ++ x :: l2 →
  props op !! "insertBefore" = None →
  ensure_valid σ p n (Some x) false = None →
  ∃ σ', before (VRef n) (VRef x) σ = Return VUndef σ' ∧
        children_of σ' p =
          (if decide (n = x) then l1 ++ x :: l2
           else filter (λ c, c ≠ n) l1 ++ n :: x :: filter (λ c, c ≠ n) l2) ∧
        parent_of σ' n = Some p ∧
        tree_ok σ'.
Proof.
  intros Hok Hp Hch Hprop Hv.
  destruct (ensure_valid_accepts _ _ _ _ _ Hv)
    as (op' & on & Hp' & Hn & Hkp & Hkn & Hne & Hpar).
  assert (Hx : x ∈ childNodes op).
  { rewrite Hch. apply elem_of_app. right. apply list_elem_of_here. }
  assert (Hnd : NoDup (l1 ++ x :: l2)).
  { rewrite <- Hch. by eapply tree_ok_nodup. }
  eexists. split; [by apply (before_run σ p op)|].
  split; [|split].
  - rewrite dom_insert_children, decide_True by (done || by eexists).
    rewrite (children_of_lookup _ _ op), Hch by done.
    rewrite <- (place_before_child n x l1 l2 Hnd). f_equal.
    case_decide as Hxn; [|done]. unfold nextSibling.
    rewrite (Hpar n Hxn). simpl.
    by rewrite (children_of_lookup _ _ op), Hch.
  - rewrite dom_insert_parent by (by eexists). by rewrite decide_True.
  - apply dom_insert_tree_ok; [done|done| |by eexists].
    by apply (node_kind σ n on).
Qed.

(** X3. [prepend] into a container that has children makes the node the
    first child; the other children follow in their order and the tree
    stays well formed. *)
Theorem prepend_makes_first_child `{SelectorEngine} σ c oc n x rest :
  tree_ok σ → σ !! c = Some oc → childNodes oc = x :: rest →
  props oc !! "appendChild" = None → props oc !! "insertBefore" = None →
  ensure_valid σ c n (Some x) false = None →
  ∃ σ', prepend (VRef n) (VRef c) σ = Return VUndef σ' ∧
        children_of σ' c = n :: filter (λ y, y ≠ n) (x :: rest) ∧
        parent_of σ' n = Some c ∧
        tree_ok σ'.
Proof.
  intros Hok Hc Hch Happ Hins Hv.
  destruct (ensure_valid_accepts _ _ _ _ _ Hv)
    as (oc' & on & Hc' & Hn & Hkc & Hkn & Hne & Hpar).
  assert (oc' = oc) as -> by congruence.
  assert (Hx : x ∈ childNodes oc) by (rewrite Hch; apply list_elem_of_here).
  assert (Hnd : NoDup ([] ++ x :: rest)).
  { rewrite <- Hch. by eapply tree_ok_nodup. }
  eexists. split; [|split; [|split]].
  - unfold prepend. cbn [truthy negb].
    rewrite run_bind, (get_appendChild _ _ oc) by done. cbn [truthy negb].
    rewrite run_bind, normalize_not_string by done.
    rewrite run_bind, (get_firstChild _ _ oc), Hch by done.
    cbn [head opt_ref from_option].
    by rewrite run_bind, (before_run σ c oc n x).
  - rewrite dom_insert_children, decide_True by (done || by eexists).
    rewrite (children_of_lookup _ _ oc), Hch by done.
    assert (Hgen := place_before_child n x [] rest Hnd).
    cbn [app] in Hgen, Hnd.
    assert (Href : (if decide (Some x = Some n) then nextSibling σ n
                    else Some x) =
                   (if decide (Some x = Some n) then next_in n (x :: rest)
                    else Some x)).
    { case_decide as Hxn; [|done]. unfold nextSibling.
      rewrite (Hpar n Hxn). simpl.
      by rewrite (children_of_lookup _ _ oc), Hch. }
    rewrite Href, Hgen. destruct (decide (n = x)) as [->|Hnx].
    + apply NoDup_cons in Hnd as [Hx' _]. by rewrite filter_ne_head.
    + by rewrite filter_cons_True.
  - rewrite dom_insert_parent by (by eexists). by rewrite decide_True.
  - apply dom_insert_tree_ok; [done|done| |by eexists].
    by apply (node_kind σ n on).
Qed.

(** X4. [after] moves the node: it leaves every child list but that of the
    reference's parent, and the tree stays well formed. *)
Theorem after_moves_node `{SelectorEngine} σ p op r n :
  tree_ok σ → σ !! p = Some op → r ∈ childNodes op →
  props op !! "insertBefore" = None →
  ensure_valid σ p n (nextSibling σ r) false = None →
  ∃ σ', after (VRef n) (VRef r) σ = Return VUndef σ' ∧
        n ∈ children_of σ' p ∧
        (∀ q, q ≠ p → children_of σ' q = filter (λ x, x ≠ n) (children_of σ q)) ∧
        tree_ok σ'.
Proof.
  intros Hok Hp Hr Hprop Hv.
  destruct (ensure_valid_accepts _ _ _ _ _ Hv)
    as (op' & on & Hp' & Hn & Hkp & Hkn & Hne & Hpar).
  eexists. split; [by apply (after_run σ p op)|]. split; [|split].
  - rewrite dom_insert_children, decide_True by (done || by eexists).
    rewrite place_perm. apply list_elem_of_here.
  - intros q Hq. rewrite dom_insert_children by (done || by eexists).
    by rewrite decide_False.
  - apply dom_insert_tree_ok; [done|done| |by eexists].
    by apply (node_kind σ n on).
Qed.

(** X5. [remove] takes an attached node out of its parent's children; the
    siblings keep their order, no other child list changes, the tree stays
    well formed, and a second [remove] does nothing. *)
Theorem remove_detaches `{SelectorEngine} σ n on p op :
  tree_ok σ → σ !! n = Some on → is_node (okind on) = true →
  parentNode on = Some p →
  σ !! p = Some op → is_node (okind op) = true →
  props op !! "removeChild" = None →
  ∃ σ', remove (VRef n) σ = Return VUndef σ' ∧
        children_of σ' p = filter (λ x, x ≠ n) (childNodes op) ∧
        parent_of σ' n = None ∧
        (∀ q, q ≠ p → children_of σ' q = children_of σ q) ∧
        tree_ok σ' ∧
        remove (VRef n) σ' = Return VUndef σ'.
Proof.
  intros Hok Hn Hkn Hpn Hp Hkp Hprop.
  assert (Hparent : parent_of σ n = Some p) by by rewrite (parent_of_lookup _ _ on).
  exists (detach n σ). split; [by apply (remove_run σ n on p op)|].
  split; [|split; [|split; [|split]]].
  - rewrite detach_children, decide_True by done.
    by rewrite (children_of_lookup _ _ op).
  - by rewrite detach_parent, decide_True.
  - intros q Hq. rewrite detach_children, decide_False; [done|congruence].
  - by apply detach_tree_ok.
  - destruct (lookup_of_kind (detach n σ) σ n) as [on' Hn'];
      [apply detach_kind|by eexists|].
    assert (Hk' : kind_of (detach n σ) n = kind_of σ n) by apply detach_kind.
    rewrite (kind_of_ref _ _ on'), (kind_of_ref _ _ on) in Hk' by done.
    assert (Hp' : parent_of (detach n σ) n = None).
    { by rewrite detach_parent, decide_True. }
    rewrite (parent_of_lookup _ _ on') in Hp' by done.
    unfold remove. cbn [truthy negb].
    rewrite run_bind, (get_parentNode _ _ on'), Hp'; [done|done|congruence].
Qed.

Lemma set_parent_back (o : obj) v :
  parentNode o = None → set_parent None (set_parent v o) = o.
Proof. destruct o. simpl. by intros ->. Qed.

Lemma set_children_back (o : obj) f g :
  g (f (childNodes o)) = childNodes o →
  set_children g (set_children f o) = o.
Proof. destruct o. unfold set_children. simpl. by intros ->. Qed.

(** X6. Appending a detached node and removing it again gives back the
    heap the two calls started from. *)
Theorem append_then_remove_restores `{SelectorEngine} σ c oc n on :
  tree_ok σ → σ !! c = Some oc →
  props oc !! "appendChild" = None → props oc !! "removeChild" = None →
  σ !! n = Some on → parentNode on = None →
  ensure_valid σ c n None false = None →
  (append (VRef n) (VRef c);; remove (VRef n)) σ = Return VUndef σ.
Proof.
  intros Hok Hc Happ Hrem Hn Hdet Hv.
  destruct (ensure_valid_accepts _ _ _ _ _ Hv)
    as (oc' & on' & Hc' & Hn' & Hkc & Hkn & Hne & _).
  assert (oc' = oc) as -> by congruence.
  assert (on' = on) as -> by congruence.
  assert (Hpar : parent_of σ n = None) by by rewrite (parent_of_lookup _ _ on).
  assert (Hfree : n ∉ childNodes oc).
  { apply (tree_ok_not_child σ c oc n Hok Hc). by rewrite Hpar. }
  rewrite run_bind, (append_run σ c oc) by done.
  set (σ1 := dom_insert n c None σ).
  assert (Hn1 : σ1 !! n = Some (set_parent (Some c) on)).
  { unfold σ1. rewrite dom_insert_lookup_detached by done. by rewrite Hn. }
  assert (Hc1 : σ1 !! c = Some (set_children (place n None) oc)).
  { unfold σ1, dom_insert, attach, detach. rewrite Hpar.
    rewrite lookup_alter_ne by done. by rewrite lookup_alter_eq, Hc. }
  rewrite (remove_run σ1 n (set_parent (Some c) on) c
             (set_children (place n None) oc)) by done.
  f_equal. unfold detach. rewrite (parent_of_lookup _ _ _ Hn1). simpl.
  apply map_eq. intros k. rewrite !lookup_alter.
  destruct (decide (n = k)) as [<-|Hnk].
  - rewrite decide_False by done. rewrite Hn1, Hn. simpl.
    by rewrite set_parent_back.
  - destruct (decide (c = k)) as [<-|Hck].
    2:{ unfold σ1, dom_insert, attach, detach. rewrite Hpar.
        by rewrite !lookup_alter_ne. }
    rewrite Hc1, Hc. simpl. rewrite set_children_back; [done|].
    simpl. rewrite filter_app, (filter_ne_id n) by done.
    rewrite filter_cons_False by (by intros ?). by rewrite app_nil_r.
Qed.

(** ** Attributes *)


(** The data functions are the attribute functions under the prefixed
    name: [data] reads and [setData] writes exactly what [attr] and
    [setAttr] do for [data-<name>]. *)
Lemma data_is_prefixed_attr `{SelectorEngine} σ elm a v :
  data elm a σ = attr elm (VStr ("data-" +:+ to_string a)) σ ∧
  setData elm a v σ = setAttr elm (VStr ("data-" +:+ to_string a)) v σ.
Proof. split; reflexivity. Qed.

(** ** Markup *)

(** X8. [html] assigns the string form of its second argument to the
    element's [innerHTML], so [null] is written as the markup [null], where
    assigning [null] itself would empty the element; what [innerHTML] reads
    afterwards is the host's serialization of what it parsed from that
    string.  On a node that has no [innerHTML], such as a text node, [html]
    does nothing. *)
Theorem html_writes_string_form `{SelectorEngine} σ r o m :
  σ !! r = Some o → exact_string m = true →
  (∀ t, okind o = KElement t →
        let σ' := inner_markup_set r (to_string m) σ in
        html (VRef r) m σ = Return VUndef σ' ∧
        attr (VRef r) (VStr "innerHTML") σ' =
          Return (VStr (serialize_markup t (parse_markup t (to_string m)))) σ' ∧
        (m = VNull →
         html (VRef r) m σ = Return VUndef (inner_markup_set r "null" σ) ∧
         set_prop (VRef r) "innerHTML" m σ =
           Return tt (inner_markup_set r "" σ))) ∧
  (okind o = KText → props o !! "innerHTML" = None →
   html (VRef r) m σ = Return VUndef σ).
Proof.
  intros Hr _. split.
  - intros t Hk σ'.
    assert (Hkr : kind_of σ r = Some (KElement t)).
    { unfold kind_of. by rewrite Hr, <- Hk. }
    assert (Hhtml : html (VRef r) m σ = Return VUndef σ').
    { unfold html. cbn [truthy negb].
      rewrite run_bind, (get_innerHTML _ _ o t) by done. cbn [is_undefined].
      by rewrite run_bind, (set_innerHTML_run _ _ o t) by done. }
    split; [exact Hhtml|]. split.
    + rewrite (attr_innerHTML _ r t).
      * unfold σ'. by rewrite (inner_markup_read_back _ _ _ _ Hkr).
      * unfold σ'. rewrite inner_markup_set_kind; [done|by eexists].
    + intros Hm. split; [by rewrite Hhtml; unfold σ'; rewrite Hm|].
      rewrite Hm. unfold set_prop. by rewrite Hr, Hk.
  - intros Hk Hprop. unfold html. cbn [truthy negb].
    rewrite run_bind, (get_prop_ref _ _ o) by done.
    unfold obj_get. by rewrite Hk, Hprop.
Qed.

(** X9. Creating an element with markup is creating it without and then
    calling [html] on it: [el(name, m)] and [el(name)] followed by
    [html(_, m)] give the same element and the same heap, for every string
    [m]. *)
Theorem el_is_create_then_html `{SelectorEngine} σ nodeName m :
  truthy nodeName = true → document_provides σ "createElement" →
  el nodeName (VStr m) σ =
  (e ← el nodeName VUndef; html e (VStr m);; mret e) σ.
Proof.
  intros Hn Hdoc.
  destruct (valid_name (to_string nodeName)) eqn:Hname.
  2:{ rewrite run_bind. unfold el. rewrite Hn. cbn [is_undefined negb].
      by rewrite !run_bind, createElement_rejected. }
  set (r := fresh (dom σ)).
  set (o := Obj (KElement (to_string nodeName)) ∅ None [] "").
  assert (Hplain : el nodeName VUndef σ = Return (VRef r) (<[r := o]> σ)).
  { unfold el. rewrite Hn. cbn [is_undefined truthy negb String.eqb].
    by rewrite run_bind, createElement_run. }
  assert (Hr : <[r := o]> σ !! r = Some o) by apply lookup_insert_eq.
  rewrite run_bind, Hplain. rewrite run_bind.
  unfold html. cbn [truthy negb].
  rewrite run_bind, (get_innerHTML _ _ o (to_string nodeName)) by done.
  cbn [is_undefined]. cbn [to_string].
  rewrite run_bind, (set_innerHTML_run _ _ o (to_string nodeName)) by done.
  unfold el. rewrite Hn. cbn [is_undefined negb truthy].
  rewrite run_bind, createElement_run by done. fold r o.
  destruct (String.eqb m "") eqn:Hm.
  - apply String.eqb_eq in Hm as ->. cbn [negb].
    rewrite inner_markup_set_empty; [done|].
    unfold children_of. by rewrite Hr.
  - cbn [negb].
    by rewrite run_bind, (set_innerHTML_run _ _ o (to_string nodeName)).
Qed.

(** ** Reading the tree *)

Lemma parent_run `{SelectorEngine} σ n on :
  σ !! n = Some on → is_node (okind on) = true →
  parent (VRef n) σ = Return (opt_ref (parentNode on)) σ.
Proof.
  intros Hn Hk. unfold parent. cbn [truthy negb].
  rewrite run_bind, (get_parentNode _ _ on) by done.
  destruct (parentNode on) as [p|] eqn:Hp; cbn [opt_ref from_option truthy negb].
  - by rewrite (get_parentNode _ _ on), Hp.
  - reflexivity.
Qed.

(** X10. [parent] follows the mutations: after [append] it answers the
    container, after [remove] it answers [null]. *)
Theorem parent_follows_mutation `{SelectorEngine} σ n on :
  tree_ok σ → σ !! n = Some on → is_node (okind on) = true →
  (∀ c oc, σ !! c = Some oc → props oc !! "appendChild" = None →
           ensure_valid σ c n None false = None →
           ∃ σ', (append (VRef n) (VRef c);; parent (VRef n)) σ =
                 Return (VRef c) σ') ∧
  (∀ p op, parentNode on = Some p → σ !! p = Some op →
           is_node (okind op) = true → props op !! "removeChild" = None →
           ∃ σ', (remove (VRef n);; parent (VRef n)) σ = Return VNull σ').
Proof.
  intros Hok Hn Hkn. split.
  - intros c oc Hc Hprop Hv. eexists.
    rewrite run_bind, (append_run σ c oc) by done.
    destruct (lookup_of_kind (dom_insert n c None σ) σ n) as [on' Hn'];
      [unfold dom_insert; by rewrite attach_kind, detach_kind|by eexists|].
    assert (Hk' : kind_of (dom_insert n c None σ) n = kind_of σ n).
    { unfold dom_insert. by rewrite attach_kind, detach_kind. }
    rewrite (kind_of_ref _ _ on'), (kind_of_ref _ _ on) in Hk' by done.
    assert (Hp' : parent_of (dom_insert n c None σ) n = Some c).
    { rewrite dom_insert_parent by (by eexists). by rewrite decide_True. }
    rewrite (parent_of_lookup _ _ on') in Hp' by done.
    rewrite (parent_run _ n on') by (done || congruence). by rewrite Hp'.
  - intros p op Hpn Hp Hkp Hprop. eexists.
    rewrite run_bind, (remove_run σ n on p op) by done.
    destruct (lookup_of_kind (detach n σ) σ n) as [on' Hn'];
      [apply detach_kind|by eexists|].
    assert (Hk' : kind_of (detach n σ) n = kind_of σ n) by apply detach_kind.
    rewrite (kind_of_ref _ _ on'), (kind_of_ref _ _ on) in Hk' by done.
    assert (Hp' : parent_of (detach n σ) n = None).
    { by rewrite detach_parent, decide_True. }
    rewrite (parent_of_lookup _ _ on') in Hp' by done.
    rewrite (parent_run _ n on') by (done || congruence). by rewrite Hp'.
Qed.

(** Only a selector the host accepts has a positive verdict. *)
Lemma selector_test_valid `{SelectorEngine} sel σ r :
  selector_test sel σ r = true → selector_valid sel = true.
Proof.
  unfold selector_test, selector_valid. by destruct (selector_parse sel).
Qed.

(** X11. [closest] on an element: a falsy selector, the empty string
    included, gives [null] without asking the host; an element that
    satisfies the selector is its own closest match; and whatever element
    is returned satisfies the selector and is the element or one of its
    ancestors. *)
Theorem closest_guards_and_result `{SelectorEngine} σ r o t selector :
  σ !! r = Some o → okind o = KElement t → props o !! "closest" = None →
  (truthy selector = false → closest (VRef r) selector σ = Return VNull σ) ∧
  (truthy selector = true →
   selector_test (to_string selector) σ r = true →
   closest (VRef r) selector σ = Return (VRef r) σ) ∧
  (∀ a, truthy selector = true →
        closest (VRef r) selector σ = Return (VRef a) σ →
        selector_test (to_string selector) σ a = true ∧
        a ∈ ancestors_from (size σ) σ r).
Proof.
  intros Hr Hk Hprop.
  assert (Hget : get_prop (VRef r) "closest" σ = Return (VNative NClosest) σ).
  { rewrite (get_prop_ref _ _ o) by done.
    rewrite obj_get_method by (by rewrite ?Hk). by rewrite Hk. }
  assert (Hrun : truthy selector = true →
            closest (VRef r) selector σ =
            if selector_valid (to_string selector)
            then Return (opt_ref (closest_from σ r (to_string selector))) σ
            else Throw SyntaxError σ).
  { intros Hs. unfold closest. cbn [truthy negb].
    rewrite run_bind, Hget. cbn [truthy negb]. rewrite Hs. cbn [negb].
    unfold invoke. rewrite run_bind, Hget. rewrite run_bind, run_ret.
    unfold call, apply_native.
    rewrite (as_node_ref _ _ o), (kind_of_ref _ _ o) by (by rewrite ?Hk).
    by rewrite Hk. }
  split; [|split].
  - intros Hs. unfold closest. cbn [truthy negb].
    rewrite run_bind, Hget. cbn [truthy negb]. by rewrite Hs.
  - intros Hs Htest. rewrite Hrun by done.
    rewrite (selector_test_valid _ _ _ Htest). unfold closest_from.
    destruct (size σ); simpl; by rewrite (kind_of_ref _ _ o), Hk, Htest.
  - intros a Hs. rewrite Hrun by done.
    destruct (selector_valid (to_string selector)); [|done].
    unfold closest_from.
    destruct (List.find _ _) as [a'|] eqn:Hfind; [|done].
    intros [= <-]. apply find_some in Hfind as [Hin Hf].
    apply andb_true_iff in Hf as [_ Hf]. split; [done|].
    by apply list_elem_of_In.
Qed.

Lemma filter_all {A} (f : A → bool) (l : list A) :
  Forall (λ x, f x = true) (List.filter f l).
Proof.
  apply Forall_forall. intros x Hx. apply list_elem_of_In in Hx.
  by apply filter_In in Hx as [_ Hx].
Qed.

Lemma head_filter_none {A} (f : A → bool) (l : list A) :
  head (List.filter f l) = None → ∀ x, x ∈ l → f x = false.
Proof.
  induction l as [|y l IH]; intros Hh x Hx; [by apply elem_of_nil in Hx|].
  simpl in Hh. destruct (f y) eqn:Hy; [done|].
  apply elem_of_cons in Hx as [->|Hx]; [done|]. by apply IH.
Qed.

Lemma head_filter_some {A} (f : A → bool) (l : list A) x :
  head (List.filter f l) = Some x → x ∈ l ∧ f x = true.
Proof.
  intros Hh. assert (Hin : In x (List.filter f l)).
  { destruct (List.filter f l); [done|]. injection Hh as ->. by left. }
  apply filter_In in Hin as [Hin Hf]. split; [by apply list_elem_of_In|done].
Qed.

(** X12. [selectFirst] answers [null] when the document cannot query.
    With a selector the host accepts it leaves the heap as it is, where
    [select] makes a new collection, and answers an element below the
    document that satisfies the selector, or [null]; it answers [null] only
    when no element below the document satisfies the selector.  A selector
    the host rejects is not caught: [selectFirst] and [select] both throw
    the host's [SyntaxError]. *)
Theorem selectFirst_finds_match `{SelectorEngine} σ selector :
  (∀ f, get_prop (VRef document) "querySelector" σ = Return f σ →
        truthy f = false → selectFirst selector σ = Return VNull σ) ∧
  (document_provides σ "querySelector" →
   selector_valid (to_string selector) = true →
   ∃ v, selectFirst selector σ = Return v σ ∧
        (v = VNull ∨ ∃ r, v = VRef r) ∧
        (∀ r, v = VRef r →
              r ∈ descendants (size σ) σ document ∧
              is_element <$> kind_of σ r = Some true ∧
              selector_test (to_string selector) σ r = true) ∧
        (v = VNull →
         ∀ r t, r ∈ descendants (size σ) σ document →
                kind_of σ r = Some (KElement t) →
                selector_test (to_string selector) σ r = false)) ∧
  (document_provides σ "querySelector" →
   document_provides σ "querySelectorAll" →
   selector_valid (to_string selector) = false →
   selectFirst selector σ = Throw SyntaxError σ ∧
   select selector σ = Throw SyntaxError σ).
Proof.
  split; [|split].
  - intros f Hget Hf. unfold selectFirst. by rewrite run_bind, Hget, Hf.
  - intros (o & Hd & Hk & Hp) Hsel.
    exists (opt_ref (head (query_all σ document (to_string selector)))).
    split.
    { unfold selectFirst. rewrite run_bind, (get_prop_ref _ _ o) by done.
      rewrite obj_get_method by (by rewrite ?Hk). rewrite Hk. simpl.
      unfold invoke. rewrite run_bind, (get_prop_ref _ _ o) by done.
      rewrite obj_get_method by (by rewrite ?Hk). rewrite Hk. simpl.
      rewrite run_bind, run_ret. simpl. unfold apply_native.
      rewrite (as_node_ref _ _ o), (kind_of_ref _ _ o) by (by rewrite ?Hk).
      change (arg 0 [selector]) with selector. rewrite Hk, Hsel. by simpl. }
    unfold query_all.
    destruct (head (List.filter _ _)) as [x|] eqn:Hh; simpl.
    + apply head_filter_some in Hh as [Hin Hf].
      apply andb_true_iff in Hf as [Hel Htest].
      split; [right; by exists x|]. split; [|done].
      intros r [= <-]. repeat split; [done| |done].
      destruct (kind_of σ x); simpl in *; congruence.
    + split; [by left|]. split; [done|]. intros _ r t Hin Hkr.
      assert (Hf := head_filter_none _ _ Hh r Hin). simpl in Hf.
      by rewrite Hkr in Hf.
  - intros (o & Hd & Hk & Hp) (o' & Hd' & _ & Hp') Hsel.
    assert (o' = o) as -> by congruence. split.
    + unfold selectFirst. rewrite run_bind, (get_prop_ref _ _ o) by done.
      rewrite obj_get_method by (by rewrite ?Hk). rewrite Hk. simpl.
      unfold invoke. rewrite run_bind, (get_prop_ref _ _ o) by done.
      rewrite obj_get_method by (by rewrite ?Hk). rewrite Hk. simpl.
      rewrite run_bind, run_ret. simpl. unfold apply_native.
      rewrite (as_node_ref _ _ o), (kind_of_ref _ _ o) by (by rewrite ?Hk).
      change (arg 0 [selector]) with selector. rewrite Hk, Hsel. by simpl.
    + unfold select. rewrite run_bind, (get_prop_ref _ _ o) by done.
      rewrite obj_get_method by (by rewrite ?Hk). rewrite Hk. simpl.
      unfold invoke. rewrite run_bind, (get_prop_ref _ _ o) by done.
      rewrite obj_get_method by (by rewrite ?Hk). rewrite Hk. simpl.
      rewrite run_bind, run_ret. simpl. unfold apply_native.
      rewrite (as_node_ref _ _ o), (kind_of_ref _ _ o) by (by rewrite ?Hk).
      change (arg 0 [selector]) with selector. rewrite Hk, Hsel. by simpl.
Qed.

(** ** What the guards let through *)

(** X13. [replace] uses the node's own parent even when the reference
    lives elsewhere: with a node attached to an element [p1] and a
    reference that is not a child of [p1], the host refuses the call and
    [replace] throws, the heap unchanged. *)
Theorem replace_in_foreign_parent_throws `{SelectorEngine} σ n on p1 op1 t r or :
  σ !! n = Some on → is_node (okind on) = true → parentNode on = Some p1 →
  σ !! p1 = Some op1 → okind op1 = KElement t →
  props op1 !! "replaceChild" = None →
  inclusive_ancestor σ n p1 = false →
  σ !! r = Some or → is_node (okind or) = true → parentNode or ≠ Some p1 →
  replace (VRef n) (VRef r) σ = Throw NotFoundError σ.
Proof.
  intros Hn Hkn Hpn Hp1 Hk1 Hprop Hanc Hr Hkr Hpr.
  assert (Hkp : is_node (okind op1) = true) by by rewrite Hk1.
  rewrite (replace_own_parent σ _ _ (VRef p1)); try done.
  2:{ by rewrite (get_parentNode _ _ on), Hpn. }
  unfold replaceChild_in, invoke.
  rewrite !run_bind, (get_replaceChild _ _ op1) by done.
  rewrite !run_bind, normalize_not_string by done.
  rewrite !run_bind, normalize_not_string by done.
  rewrite run_ret. unfold call, apply_native.
  rewrite (as_node_ref _ _ op1) by done.
  change (arg 0 [VRef n; VRef r]) with (VRef n).
  change (arg 1 [VRef n; VRef r]) with (VRef r).
  rewrite (as_node_ref _ _ on), (as_node_ref _ _ or) by done.
  unfold replace_child, ensure_valid.
  rewrite (kind_of_ref _ _ op1), (kind_of_ref _ _ on), Hk1, Hanc by done.
  cbn [negb]. rewrite (parent_of_lookup _ _ or) by done.
  by rewrite bool_decide_eq_false_2.
Qed.

(** X14. The capability probe of [append] does not stop an insertion the
    host refuses: appending a node to itself throws, the heap unchanged. *)
Theorem append_to_itself_throws `{SelectorEngine} σ c oc :
  σ !! c = Some oc → is_node (okind oc) = true →
  props oc !! "appendChild" = None →
  append (VRef c) (VRef c) σ = Throw HierarchyRequestError σ.
Proof.
  intros Hc Hk Hprop. unfold append. cbn [truthy negb].
  rewrite run_bind, (get_appendChild _ _ oc) by done. cbn [truthy negb].
  unfold invoke. rewrite !run_bind, (get_appendChild _ _ oc) by done.
  rewrite !run_bind, normalize_not_string by done. rewrite run_ret.
  unfold call, apply_native. rewrite (as_node_ref _ _ oc) by done.
  change (arg 0 [VRef c]) with (VRef c).
  rewrite (as_node_ref _ _ oc) by done.
  unfold pre_insert, ensure_valid.
  rewrite (kind_of_ref _ _ oc), inclusive_ancestor_self by done.
  by destruct (okind oc).
Qed.

Lemma apply_native_not_string `{SelectorEngine} f this args σ x σ' :
  apply_native f this args σ = Return x σ' → is_string x = false.
Proof.
  unfold apply_native, pre_insert, replace_child, pre_remove, alloc.
  intros Hrun. repeat case_match; simplify_eq; try done.
  all: by match goal with |- context [opt_ref ?o] => destruct o end.
Qed.

Lemma normalize_result_not_string `{SelectorEngine} v σ x σ' :
  normalize v σ = Return x σ' → is_string x = false.
Proof.
  unfold normalize. destruct (is_string v) eqn:Hs.
  - unfold text, invoke. rewrite !run_bind.
    destruct (get_prop _ _ σ) as [f σ1|]; [|done].
    rewrite run_bind, run_ret.
    unfold call. destruct f; try done. apply apply_native_not_string.
  - by intros [= <- <-].
Qed.

(** X15. [normalize] is idempotent: normalizing its result again returns
    that result and leaves the heap as the first call left it.  This is why
    [prepend] may hand an already normalized node to [before]. *)
Theorem normalize_idempotent `{SelectorEngine} v σ :
  (x ← normalize v; normalize x) σ = normalize v σ.
Proof.
  rewrite run_bind. destruct (normalize v σ) as [x σ'|e σ'] eqn:Hrun; [|done].
  apply normalize_not_string. by eapply normalize_result_not_string.
Qed.

(** X16. With a falsy first argument every function returns at its first
    guard and leaves the heap alone: the reading functions answer [null],
    the mutating ones [undefined].  The empty string counts as absent, so
    [append('', c)] appends nothing. *)
Theorem absent_node_short_circuits `{SelectorEngine} (elm x y : val) σ :
  truthy elm = false →
  (attr elm x σ = Return VNull σ ∧ data elm x σ = Return VNull σ ∧
   matches elm x σ = Return VNull σ ∧ parent elm σ = Return VNull σ ∧
   closest elm x σ = Return VNull σ) ∧
  (before elm x σ = Return VUndef σ ∧ after elm x σ = Return VUndef σ ∧
   append elm x σ = Return VUndef σ ∧ prepend elm x σ = Return VUndef σ ∧
   replace elm x σ = Return VUndef σ ∧ remove elm σ = Return VUndef σ ∧
   html elm x σ = Return VUndef σ ∧ setAttr elm x y σ = Return VUndef σ ∧
   setData elm x y σ = Return VUndef σ).
Proof.
  intros He. split; [|by apply mutation_absent_node].
  unfold attr, data, matches, parent, closest. rewrite He. simpl.
  repeat split.
Qed.

(** ** Replacement among siblings *)

Lemma place_replacing (n r : loc) (l1 l2 : list loc) :
  NoDup (l1 ++ r :: l2) → n ≠ r →
  place n (if decide (head l2 = Some n) then next_in n (l1 ++ r :: l2)
           else head l2)
        (filter (λ c, c ≠ n) (l1 ++ l2)) =
  filter (λ c, c ≠ n) l1 ++ n :: filter (λ c, c ≠ n) l2.
Proof.
  intros Hnd Hnr.
  assert (Hnd' := Hnd). apply NoDup_app in Hnd' as (Hnd1 & Hdisj & Hnd2).
  apply NoDup_cons in Hnd2 as [Hr2 Hnd2].
  rewrite filter_app. destruct l2 as [|y l2]; cbn [head].
  - rewrite decide_False by done. simpl. by rewrite app_nil_r.
  - apply NoDup_cons in Hnd2 as [Hy2 Hnd2].
    assert (Hy1 : y ∉ l1).
    { intros Hin. apply (Hdisj y Hin).
      apply list_elem_of_further, list_elem_of_here. }
    destruct (decide (Some y = Some n)) as [Hyn|Hyn].
    + injection Hyn as ->.
      assert (Hn1 : n ∉ l1 ++ [r]).
      { apply not_elem_of_app. split; [done|].
        intros Hin. apply list_elem_of_singleton in Hin. done. }
      change (l1 ++ r :: n :: l2) with (l1 ++ [r] ++ n :: l2).
      rewrite app_assoc, next_in_middle by done.
      rewrite !filter_ne_head, (filter_ne_id n l1) by done.
      destruct l2 as [|z l2]; simpl.
      * by rewrite app_nil_r.
      * apply insert_before_middle. intros Hz. apply (Hdisj z Hz).
        do 2 apply list_elem_of_further. apply list_elem_of_here.
    + assert (y ≠ n) by congruence.
      rewrite filter_cons_True by done. simpl.
      apply insert_before_middle. by apply not_elem_of_filter_ne.
Qed.

Lemma replace_run `{SelectorEngine} σ p op n r :
  tree_ok σ → σ !! p = Some op → r ∈ childNodes op →
  props op !! "replaceChild" = None →
  parent_of σ n = None ∨ parent_of σ n = Some p →
  ensure_valid σ p n (Some r) true = None →
  replace (VRef n) (VRef r) σ =
  Return VUndef
    (dom_insert n p
       (if decide (nextSibling σ r = Some n) then nextSibling σ n
        else nextSibling σ r)
       (detach r σ)).
Proof.
  intros Hok Hp Hr Hprop Hnp Hv.
  destruct (tree_ok_child σ p op r Hok Hp Hr) as (or & Hor & Hkr & Hpr).
  destruct (ensure_valid_accepts _ _ _ _ _ Hv)
    as (op' & on & Hp' & Hn & Hkp & Hkn & Hne & _).
  assert (op' = op) as -> by congruence.
  assert (Hin : replaceChild_in (VRef n) (VRef r) (VRef p) σ =
    Return VUndef
      (dom_insert n p
         (if decide (nextSibling σ r = Some n) then nextSibling σ n
          else nextSibling σ r)
         (detach r σ))).
  { unfold replaceChild_in, invoke.
    rewrite !run_bind, (get_replaceChild _ _ op) by done.
    rewrite !run_bind, normalize_not_string by done.
    rewrite !run_bind, normalize_not_string by done.
    rewrite run_ret. unfold call, apply_native.
    rewrite (as_node_ref _ _ op) by done.
    change (arg 0 [VRef n; VRef r]) with (VRef n).
    change (arg 1 [VRef n; VRef r]) with (VRef r).
    rewrite (as_node_ref _ _ on), (as_node_ref _ _ or) by done.
    unfold replace_child. by rewrite Hv. }
  rewrite (parent_of_lookup _ _ on) in Hnp by done.
  destruct Hnp as [Hnone|Hsome].
  - rewrite (replace_reference_parent σ _ _ VNull (VRef p)); try done.
    + by rewrite (get_parentNode _ _ on), Hnone.
    + by rewrite (get_parentNode _ _ or), Hpr.
  - rewrite (replace_own_parent σ _ _ (VRef p)); try done.
    by rewrite (get_parentNode _ _ on), Hsome.
Qed.

(** X18. [replace] with a reference that is a child of [p] and a node
    that is detached or another child of [p]: the node takes the
    reference's place, leaving its own if it had one, the other children
    keep their order, the reference is left without a parent, and the tree
    stays well formed. *)
Theorem replace_takes_the_place `{SelectorEngine} σ p op l1 r l2 n :
  tree_ok σ → σ !! p = Some op → childNodes op = l1 ++ r :: l2 →
  props op !! "replaceChild" = None →
  parent_of σ n = None ∨ parent_of σ n = Some p → n ≠ r →
  ensure_valid σ p n (Some r) true = None →
  ∃ σ', replace (VRef n) (VRef r) σ = Return VUndef σ' ∧
        children_of σ' p =
          filter (λ c, c ≠ n) l1 ++ n :: filter (λ c, c ≠ n) l2 ∧
        parent_of σ' r = None ∧ parent_of σ' n = Some p ∧
        tree_ok σ'.
Proof.
  intros Hok Hp Hch Hprop Hnp Hnr Hv.
  assert (Hnd : NoDup (l1 ++ r :: l2)).
  { rewrite <- Hch. by eapply tree_ok_nodup. }
  assert (Hr1 : r ∉ l1).
  { apply NoDup_app in Hnd as (_ & Hdisj & _). intros Hin.
    apply (Hdisj r Hin). apply list_elem_of_here. }
  assert (Hr2 : r ∉ l2).
  { apply NoDup_app in Hnd as (_ & _ & Hnd2).
    by apply NoDup_cons in Hnd2 as [? _]. }
  assert (Hr : r ∈ childNodes op).
  { rewrite Hch. apply elem_of_app. right. apply list_elem_of_here. }
  destruct (tree_ok_child σ p op r Hok Hp Hr) as (or & Hor & Hkr & Hpr).
  destruct (ensure_valid_accepts _ _ _ _ _ Hv)
    as (op' & on & Hp' & Hn & Hkp & Hkn & Hne & _).
  assert (Hrp : parent_of σ r = Some p).
  { by rewrite (parent_of_lookup _ _ or). }
  assert (Hnext : nextSibling σ r = head l2).
  { unfold nextSibling. rewrite Hrp. simpl.
    rewrite (children_of_lookup _ _ op), Hch by done. by apply next_in_middle. }
  assert (Hok1 : tree_ok (detach r σ)) by by apply detach_tree_ok.
  assert (Hp1 : is_Some (detach r σ !! p)).
  { apply (lookup_of_kind _ σ); [apply detach_kind|by eexists]. }
  assert (Hn1 : is_Some (detach r σ !! n)).
  { apply (lookup_of_kind _ σ); [apply detach_kind|by eexists]. }
  eexists. split; [by apply (replace_run σ p op)|].
  split; [|split; [|split]].
  - rewrite dom_insert_children by done.
    rewrite (decide_True (P := p = p)) by done.
    rewrite detach_children.
    rewrite (decide_True (P := parent_of σ r = Some p)) by done.
    rewrite (children_of_lookup _ _ op), Hch by done.
    rewrite filter_app, filter_ne_head, (filter_ne_id r l1) by done.
    rewrite <- (place_replacing n r l1 l2 Hnd Hnr). f_equal.
    rewrite Hnext. case_decide as Hh; [|done].
    assert (Hnin : n ∈ childNodes op).
    { rewrite Hch. apply elem_of_app. right. apply list_elem_of_further.
      destruct l2; [done|]. injection Hh as ->. apply list_elem_of_here. }
    destruct (tree_ok_child σ p op n Hok Hp Hnin) as (on' & Hn' & _ & Hpn').
    unfold nextSibling. rewrite (parent_of_lookup _ _ on'), Hpn' by done.
    simpl. by rewrite (children_of_lookup _ _ op), Hch.
  - rewrite dom_insert_parent, decide_False by done.
    by rewrite detach_parent, decide_True.
  - rewrite dom_insert_parent by done. by rewrite decide_True.
  - apply dom_insert_tree_ok; [done|done| |done].
    rewrite detach_kind. by apply (node_kind σ n on).
Qed.

(** * The further properties on the sample page *)

Lemma append_makes_last_child_witness :
  ∃ σ', append (H := tag_engine) (VRef 5%positive) (VRef 2%positive)
          sample_heap = Return VUndef σ' ∧
        children_of σ' 2%positive = [3%positive; 4%positive; 5%positive] ∧
        parent_of σ' 5%positive = Some 2%positive ∧
        tree_ok σ'.
Proof.
  destruct (append_makes_last_child (H := tag_engine) sample_heap 2%positive
              sample_ul 5%positive sample_tree_ok eq_refl eq_refl eq_refl)
    as (σ' & Hrun & Hlist & Hpar & _ & Hok).
  by exists σ'.
Defined.

Lemma before_inserts_in_front_witness :
  ∃ σ', before (H := tag_engine) (VRef 5%positive) (VRef 4%positive)
          sample_heap = Return VUndef σ' ∧
        children_of σ' 2%positive = [3%positive; 5%positive; 4%positive] ∧
        parent_of σ' 5%positive = Some 2%positive ∧
        tree_ok σ'.
Proof.
  apply (before_inserts_in_front (H := tag_engine) sample_heap 2%positive
           sample_ul [3%positive] 4%positive [] 5%positive
           sample_tree_ok eq_refl eq_refl eq_refl eq_refl).
Defined.

Lemma prepend_makes_first_child_witness :
  ∃ σ', prepend (H := tag_engine) (VRef 5%positive) (VRef 2%positive)
          sample_heap = Return VUndef σ' ∧
        children_of σ' 2%positive = [5%positive; 3%positive; 4%positive] ∧
        parent_of σ' 5%positive = Some 2%positive ∧
        tree_ok σ'.
Proof.
  apply (prepend_makes_first_child (H := tag_engine) sample_heap 2%positive
           sample_ul 5%positive 3%positive [4%positive]
           sample_tree_ok eq_refl eq_refl eq_refl eq_refl eq_refl).
Defined.

Lemma after_moves_node_witness :
  ∃ σ', after (H := tag_engine) (VRef 3%positive) (VRef 4%positive)
          sample_heap = Return VUndef σ' ∧
        3%positive ∈ children_of σ' 2%positive ∧
        tree_ok σ'.
Proof.
  destruct (after_moves_node (H := tag_engine) sample_heap 2%positive
              sample_ul 4%positive 3%positive sample_tree_ok eq_refl)
    as (σ' & Hrun & Hin & _ & Hok); [|reflexivity..|by exists σ'].
  apply list_elem_of_further, list_elem_of_here.
Defined.

Lemma remove_detaches_witness :
  ∃ σ', remove (H := tag_engine) (VRef 3%positive) sample_heap =
          Return VUndef σ' ∧
        children_of σ' 2%positive = [4%positive] ∧
        parent_of σ' 3%positive = None ∧
        remove (H := tag_engine) (VRef 3%positive) σ' = Return VUndef σ'.
Proof.
  destruct (remove_detaches (H := tag_engine) sample_heap 3%positive
              (sample_li (Some 2%positive)) 2%positive sample_ul
              sample_tree_ok eq_refl eq_refl eq_refl eq_refl eq_refl eq_refl)
    as (σ' & Hrun & Hlist & Hpar & _ & _ & Hagain).
  by exists σ'.
Defined.

Lemma append_then_remove_restores_witness :
  (append (H := tag_engine) (VRef 5%positive) (VRef 6%positive);;
   remove (H := tag_engine) (VRef 5%positive)) sample_heap =
  Return VUndef sample_heap.
Proof.
  apply (append_then_remove_restores (H := tag_engine) sample_heap 6%positive
           sample_div 5%positive (sample_li None)
           sample_tree_ok eq_refl eq_refl eq_refl eq_refl eq_refl eq_refl).
Defined.


Lemma html_writes_string_form_witness :
  let σ' := inner_markup_set (H := tag_engine) 6%positive "null" sample_heap in
  html (H := tag_engine) (VRef 6%positive) VNull sample_heap =
    Return VUndef σ' ∧
  attr (H := tag_engine) (VRef 6%positive) (VStr "innerHTML") σ' =
    Return (VStr "null") σ' ∧
  set_prop (H := tag_engine) (VRef 6%positive) "innerHTML" VNull sample_heap =
    Return tt sample_heap.
Proof.
  destruct (html_writes_string_form (H := tag_engine) sample_heap 6%positive
              sample_div VNull eq_refl eq_refl) as [Helem _].
  destruct (Helem "div" eq_refl) as (Hhtml & Hread & Hnull).
  destruct (Hnull eq_refl) as [_ Hset].
  split; [exact Hhtml|]. split; [exact Hread|].
  rewrite Hset. reflexivity.
Defined.

Lemma el_is_create_then_html_witness :
  el (H := tag_engine) (VStr "div") (VStr "<b>x</b>") sample_heap =
  (e ← el (H := tag_engine) (VStr "div") VUndef;
   html (H := tag_engine) e (VStr "<b>x</b>");; mret e) sample_heap.
Proof.
  apply el_is_create_then_html; [reflexivity|apply sample_document].
Defined.

Lemma parent_follows_mutation_witness :
  (∃ σ', (append (H := tag_engine) (VRef 3%positive) (VRef 6%positive);;
          parent (H := tag_engine) (VRef 3%positive)) sample_heap =
         Return (VRef 6%positive) σ') ∧
  (∃ σ', (remove (H := tag_engine) (VRef 3%positive);;
          parent (H := tag_engine) (VRef 3%positive)) sample_heap =
         Return VNull σ').
Proof.
  destruct (parent_follows_mutation (H := tag_engine) sample_heap 3%positive
              (sample_li (Some 2%positive)) sample_tree_ok eq_refl eq_refl)
    as [Happ Hrem].
  split.
  - by apply (Happ 6%positive sample_div).
  - by apply (Hrem 2%positive sample_ul).
Defined.

Lemma closest_guards_and_result_witness :
  closest (H := tag_engine) (VRef 3%positive) (VStr "") sample_heap =
    Return VNull sample_heap ∧
  closest (H := tag_engine) (VRef 3%positive) (VStr "li") sample_heap =
    Return (VRef 3%positive) sample_heap.
Proof.
  destruct (closest_guards_and_result (H := tag_engine) sample_heap 3%positive
              (sample_li (Some 2%positive)) "li" (VStr "")
              eq_refl eq_refl eq_refl) as (Hfalsy & _ & _).
  destruct (closest_guards_and_result (H := tag_engine) sample_heap 3%positive
              (sample_li (Some 2%positive)) "li" (VStr "li")
              eq_refl eq_refl eq_refl) as (_ & Hself & _).
  split; [by apply Hfalsy|by apply Hself].
Defined.

Lemma selectFirst_finds_match_witness :
  (∃ v, selectFirst (H := tag_engine) (VStr "li") sample_heap =
          Return v sample_heap ∧
        (v = VNull ∨ ∃ r, v = VRef r)) ∧
  selectFirst (H := tag_engine) (VStr "") sample_heap =
    Throw SyntaxError sample_heap.
Proof.
  split.
  - destruct (selectFirst_finds_match (H := tag_engine) sample_heap
                (VStr "li")) as (_ & Hfound & _).
    destruct (Hfound (sample_document _) eq_refl) as (v & Hrun & Hv & _).
    by exists v.
  - destruct (selectFirst_finds_match (H := tag_engine) sample_heap
                (VStr "")) as (_ & _ & Hthrow).
    by destruct (Hthrow (sample_document _) (sample_document _) eq_refl).
Defined.

Lemma replace_in_foreign_parent_throws_witness :
  replace (H := tag_engine) (VRef 3%positive) (VRef 5%positive) sample_heap =
  Throw NotFoundError sample_heap.
Proof.
  by apply (replace_in_foreign_parent_throws (H := tag_engine) sample_heap
              3%positive (sample_li (Some 2%positive)) 2%positive sample_ul
              "ul" 5%positive (sample_li None)).
Defined.

Lemma append_to_itself_throws_witness :
  append (H := tag_engine) (VRef 6%positive) (VRef 6%positive) sample_heap =
  Throw HierarchyRequestError sample_heap.
Proof.
  by apply (append_to_itself_throws (H := tag_engine) sample_heap 6%positive
              sample_div).
Defined.

Lemma absent_node_short_circuits_witness :
  append (H := tag_engine) (VStr "") (VRef 2%positive) sample_heap =
    Return VUndef sample_heap ∧
  attr (H := tag_engine) VNull (VStr "id") sample_heap =
    Return VNull sample_heap.
Proof.
  destruct (absent_node_short_circuits (H := tag_engine) (VStr "")
              (VRef 2%positive) VUndef sample_heap eq_refl)
    as (_ & _ & _ & Happ & _).
  destruct (absent_node_short_circuits (H := tag_engine) VNull
              (VStr "id") VUndef sample_heap eq_refl)
    as ((Hattr & _) & _).
  by split.
Defined.

Lemma replace_takes_the_place_witness :
  ∃ σ', replace (H := tag_engine) (VRef 4%positive) (VRef 3%positive)
          sample_heap = Return VUndef σ' ∧
        children_of σ' 2%positive = [4%positive] ∧
        parent_of σ' 3%positive = None ∧
        parent_of σ' 4%positive = Some 2%positive ∧
        tree_ok σ'.
Proof.
  apply (replace_takes_the_place (H := tag_engine) sample_heap 2%positive
           sample_ul [] 3%positive [4%positive] 4%positive
           sample_tree_ok eq_refl eq_refl eq_refl);
    [by right | done | reflexivity].
Defined.

Lemma mutation_missing_capability_witness :
  before (H := tag_engine) (VRef 5%positive) (VRef 7%positive) sample_heap =
    Return VUndef sample_heap ∧
  append (H := tag_engine) (VRef 5%positive) (VRef 8%positive) sample_heap =
    Return VUndef sample_heap ∧
  html (H := tag_engine) (VRef 8%positive) (VStr "x") sample_heap =
    Return VUndef sample_heap.
Proof.
  destruct (mutation_missing_capability (H := tag_engine) (VRef 5%positive)
              (VRef 7%positive) sample_heap eq_refl eq_refl)
    as (_ & Hins & _ & _).
  destruct (mutation_missing_capability (H := tag_engine) (VRef 5%positive)
              (VRef 8%positive) sample_heap eq_refl eq_refl)
    as (_ & _ & Happ & _).
  destruct (mutation_missing_capability (H := tag_engine) (VRef 8%positive)
              (VStr "x") sample_heap eq_refl eq_refl)
    as (_ & _ & _ & Hhtml).
  split; [|split].
  - by destruct (Hins (VRef 8%positive) VUndef).
  - by destruct (Happ VUndef).
  - by apply Hhtml.
Defined.
